(** * lab4d: loss utilities and the deformable field

    A shallow embedding of [lab4d/utils/loss_utils.py] and of the methods of
    [Deformable] in [lab4d/nnutils/deformable.py] that do not live in the
    base field or in the warp module.

    Floating-point tensors are idealised as real-valued tensors: a tensor is
    a shape together with its row-major data over [R].  A float result that
    is [inf] or [nan] has no real counterpart and is reported as the fault
    [NonFinite]; rounding is not modelled.  [align_vectors], whose answer
    depends on under- and overflow, is modelled on IEEE 754 binary floats
    instead ([FTensor]). *)

From Stdlib Require Import Reals Lra Lia ZArith List.
From Stdlib Require Import Floats.SpecFloat.
From stdpp Require Import base option list gmap strings.

Open Scope R_scope.

(** ** Faults and the result monad *)

Inductive fault : Type :=
| NonFinite                          (* the float value is inf or nan *)
| IndexError
| KeyError (key : string)
| UnboundLocalError (var : string)
| AttributeError (attr : string)
| TypeError
| RuntimeError
| FileNotFoundError (path : string).

Inductive result (A : Type) : Type :=
| Ok (a : A)
| Raise (e : fault).

Arguments Ok {A} a.
Arguments Raise {A} e.

Definition bind {A B : Type} (m : result A) (k : A -> result B) : result B :=
  match m with
  | Ok a => k a
  | Raise e => Raise e
  end.

Notation "x <- m ;; k" := (bind m (fun x => k))
  (at level 100, m at next level, right associativity).

Fixpoint mapM {A B : Type} (f : A -> result B) (l : list A) : result (list B) :=
  match l with
  | [] => Ok []
  | a :: l' => b <- f a ;; bs <- mapM f l' ;; Ok (b :: bs)
  end.

(** ** Scalars *)

Definition Rsum (l : list R) : R := fold_right Rplus 0 l.

Definition fdiv (a b : R) : result R :=
  if Req_dec_T b 0 then Raise NonFinite else Ok (a / b).

Definition flog (x : R) : result R :=
  if Rlt_dec 0 x then Ok (ln x) else Raise NonFinite.

(** ** Tensors *)

Record Tensor : Type := mkTensor { shape : list nat; data : list R }.

Definition numel (s : list nat) : nat := fold_right Nat.mul 1%nat s.

Definition wf (t : Tensor) : Prop := length (data t) = numel (shape t).

Definition scalar (x : R) : Tensor := mkTensor [] [x].

Definition tmap (f : R -> R) (t : Tensor) : Tensor :=
  mkTensor (shape t) (map f (data t)).

Definition tmapM (f : R -> result R) (t : Tensor) : result Tensor :=
  d <- mapM f (data t) ;; Ok (mkTensor (shape t) d).

(** Python's index normalisation: [dim] counts from the end when negative.
    A 0-dimensional tensor accepts [0] and [-1]. *)
Definition wrap_dim (ndim : nat) (dim : Z) : result nat :=
  let n := Z.max 1 (Z.of_nat ndim) in
  if ((0 <=? dim) && (dim <? n))%Z then Ok (Z.to_nat dim)
  else if ((- n <=? dim) && (dim <? 0))%Z then Ok (Z.to_nat (dim + n))
  else Raise IndexError.

(** The lanes of a tensor along one axis: with [pre] the number of index
    combinations before the axis, [n] its extent and [post] the number after
    it, lane [(p, q)] lists the [n] entries met when only the axis index
    moves. *)
Definition lanes (pre n post : nat) (d : list R) : list (list R) :=
  flat_map (fun p =>
    map (fun q =>
      map (fun j => nth ((p * n + j) * post + q) d 0) (seq 0 n))
      (seq 0 post))
    (seq 0 pre).

(** Reduction of every lane along [dim] with [f], as [t.sum(dim)],
    [t.norm(2, dim)] do; [keepdim] leaves an axis of extent one. *)
Definition reduce (f : list R -> R) (t : Tensor) (dim : Z) (keepdim : bool)
  : result Tensor :=
  d <- wrap_dim (length (shape t)) dim ;;
  match shape t with
  | [] => Ok (mkTensor [] (map f (lanes 1 1 1 (data t))))
  | s =>
      let pre := firstn d s in
      let post := skipn (S d) s in
      Ok (mkTensor (pre ++ (if keepdim then [1%nat] else []) ++ post)
            (map f (lanes (numel pre) (nth d s 1%nat) (numel post) (data t))))
  end.

Definition tsum (t : Tensor) (dim : Z) (keepdim : bool) : result Tensor :=
  reduce Rsum t dim keepdim.

(** [t.sum()] and [t.mean()] over all entries give a 0-dimensional tensor;
    the mean of an empty tensor is [nan]. *)
Definition tsum_all (t : Tensor) : R := Rsum (data t).

Definition tmean_all (t : Tensor) : result R :=
  fdiv (Rsum (data t)) (INR (length (data t))).

(** View under a new shape; the number of entries must agree. *)
Definition view (t : Tensor) (s : list nat) : result Tensor :=
  if (numel s =? length (data t))%nat then Ok (mkTensor s (data t))
  else Raise RuntimeError.

(** [t.view(-1, n)]: the leading extent is inferred. *)
Definition view_rows (t : Tensor) (n : nat) : result Tensor :=
  if (n =? 0)%nat then Raise RuntimeError
  else if (length (data t) mod n =? 0)%nat
       then Ok (mkTensor [(length (data t) / n)%nat; n] (data t))
       else Raise RuntimeError.

(** *** Broadcasting of element-wise binary operations *)

(** Shapes are aligned at their last axis: the recursion runs over the
    reversed shapes. *)
Fixpoint broadcast_rev (a b : list nat) : result (list nat) :=
  match a, b with
  | [], _ => Ok b
  | _, [] => Ok a
  | x :: a', y :: b' =>
      rest <- broadcast_rev a' b' ;;
      if (x =? y)%nat then Ok (x :: rest)
      else if (x =? 1)%nat then Ok (y :: rest)
      else if (y =? 1)%nat then Ok (x :: rest)
      else Raise RuntimeError
  end.

Definition broadcast_shapes (a b : list nat) : result (list nat) :=
  r <- broadcast_rev (rev a) (rev b) ;; Ok (rev r).

Definition pad_shape (s : list nat) (n : nat) : list nat :=
  repeat 1%nat (n - length s) ++ s.

Definition chunk (n i : nat) (d : list R) : list R :=
  firstn n (skipn (i * n) d).

(** Data of a tensor of shape [src] laid out under the shape [dst] it is
    broadcast to; an axis of extent one is repeated. *)
Fixpoint expand (src dst : list nat) (d : list R) : list R :=
  match src, dst with
  | a :: src', b :: dst' =>
      if (a =? b)%nat
      then flat_map (fun i => expand src' dst' (chunk (numel src') i d)) (seq 0 a)
      else concat (repeat (expand src' dst' d) b)
  | _, _ => d
  end.

Definition tbinop (f : R -> R -> R) (a b : Tensor) : result Tensor :=
  s <- broadcast_shapes (shape a) (shape b) ;;
  Ok (mkTensor s
        (zip_with f
           (expand (pad_shape (shape a) (length s)) s (data a))
           (expand (pad_shape (shape b) (length s)) s (data b)))).

Definition tmul : Tensor -> Tensor -> result Tensor := tbinop Rmult.
Definition tsub : Tensor -> Tensor -> result Tensor := tbinop Rminus.

(** *** Maximum along an axis and scatter *)

Record ITensor : Type := mkITensor { ishape : list nat; idata : list nat }.

(** Running maximum with the position of its first occurrence. *)
Fixpoint argmax_from (best : R) (bi i : nat) (l : list R) : R * nat :=
  match l with
  | [] => (best, bi)
  | x :: r =>
      if Rlt_dec best x then argmax_from x i (S i) r
      else argmax_from best bi (S i) r
  end.

Definition max_first (l : list R) : result (R * nat) :=
  match l with
  | [] => Raise IndexError
  | x :: r => Ok (argmax_from x 0 1 r)
  end.

(** [t.max(dim, keepdim)]: values and indices, the index of the first
    maximal entry of each lane.  An axis of extent zero cannot be reduced. *)
Definition tmax (t : Tensor) (dim : Z) (keepdim : bool)
  : result (Tensor * ITensor) :=
  d <- wrap_dim (length (shape t)) dim ;;
  let s := shape t in
  let pre := firstn d s in
  let post := skipn (S d) s in
  let out := match s with
             | [] => []
             | _ => pre ++ (if keepdim then [1%nat] else []) ++ post
             end in
  vi <- mapM max_first (lanes (numel pre) (nth d s 1%nat) (numel post) (data t)) ;;
  if (nth d s 1%nat =? 0)%nat then Raise IndexError
  else Ok (mkTensor out (map fst vi), mkITensor out (map snd vi)).

(** [self.scatter(-1, index, src)] for an index that holds one entry per
    row, the shape [max(-1, keepdim=True)] leaves: row [r] of the copy
    receives [src[r]] at position [index[r]]. *)
Definition scatter_last (self : Tensor) (index : ITensor) (src : Tensor)
  : result Tensor :=
  match last (shape self) with
  | None => Raise RuntimeError
  | Some B =>
      let rows := lanes (numel (removelast (shape self))) B 1 (data self) in
      if negb ((length (idata index) =? length rows)%nat
               && (length (data src) =? length rows)%nat)
      then Raise RuntimeError
      else
        rows' <- mapM (fun riv : list R * (nat * R) =>
                         let i := fst (snd riv) in
                         if (i <? B)%nat then Ok (<[i := snd (snd riv)]> (fst riv))
                         else Raise RuntimeError)
                      (zip rows (zip (idata index) (data src))) ;;
        Ok (mkTensor (shape self) (concat rows'))
  end.

(** ** Floating-point tensors

    A tensor of dtype [float32] or [float64]: its entries are IEEE 754
    binary floats, with the arithmetic of [SpecFloat] (round to nearest,
    ties to even; under- and overflow, infinities and nan as the standard
    has them). *)

Inductive dtype : Type := float32 | float64.

Definition prec_of (dt : dtype) : Z :=
  match dt with float32 => 24%Z | float64 => 53%Z end.

Definition emax_of (dt : dtype) : Z :=
  match dt with float32 => 128%Z | float64 => 1024%Z end.

Definition fl_mul (dt : dtype) : spec_float -> spec_float -> spec_float :=
  SFmul (prec_of dt) (emax_of dt).

Definition fl_add (dt : dtype) : spec_float -> spec_float -> spec_float :=
  SFadd (prec_of dt) (emax_of dt).

Definition fl_div (dt : dtype) : spec_float -> spec_float -> spec_float :=
  SFdiv (prec_of dt) (emax_of dt).

Definition fl_zero : spec_float := S754_zero false.

Definition fl_one (dt : dtype) : spec_float := SFone (prec_of dt) (emax_of dt).

Record FTensor : Type :=
  mkFTensor { fdtype : dtype; fshape : list nat; fdata : list spec_float }.

Definition fwf (t : FTensor) : Prop := length (fdata t) = numel (fshape t).

(** Type promotion of a binary operation, and the conversion of an entry
    to the promoted dtype (a no-op when the dtype stays). *)
Definition promote (a b : dtype) : dtype :=
  match a, b with
  | float32, float32 => float32
  | _, _ => float64
  end.

Definition cast (src dst : dtype) (x : spec_float) : spec_float :=
  match src, dst with
  | float32, float32 | float64, float64 => x
  | _, _ =>
      match x with
      | S754_finite s m e => binary_round (prec_of dst) (emax_of dst) s m e
      | _ => x
      end
  end.

Fixpoint fexpand (src dst : list nat) (d : list spec_float) : list spec_float :=
  match src, dst with
  | a :: src', b :: dst' =>
      if (a =? b)%nat
      then flat_map (fun i => fexpand src' dst'
                                (firstn (numel src') (skipn (i * numel src') d)))
             (seq 0 a)
      else concat (repeat (fexpand src' dst' d) b)
  | _, _ => d
  end.

(** [a * b] with broadcasting. *)
Definition ftmul (a b : FTensor) : result FTensor :=
  s <- broadcast_shapes (fshape a) (fshape b) ;;
  let dt := promote (fdtype a) (fdtype b) in
  Ok (mkFTensor dt s
        (zip_with (fl_mul dt)
           (map (cast (fdtype a) dt)
              (fexpand (pad_shape (fshape a) (length s)) s (fdata a)))
           (map (cast (fdtype b) dt)
              (fexpand (pad_shape (fshape b) (length s)) s (fdata b))))).

(** [t.sum()]: the entries are added in the tensor's own precision, here
    from left to right (torch fixes no order). *)
Definition fsum (dt : dtype) (l : list spec_float) : spec_float :=
  fold_left (fl_add dt) l fl_zero.

Definition ftsum_all (t : FTensor) : spec_float := fsum (fdtype t) (fdata t).

(** [-t] *)
Definition fneg (t : FTensor) : FTensor :=
  mkFTensor (fdtype t) (fshape t) (map SFopp (fdata t)).

(** * lab4d/utils/loss_utils.py *)

Module LossUtils.

Definition eps : R := 1 / 1000000000.

(** [entropy = -(prob * (prob + 1e-9).log()).sum(dim)], over the reals:
    [prob + 1e-9] is the exact sum here, while a float32 entry of 1 absorbs
    the 1e-9, so what is said of this function holds for the floats up to
    their rounding and settles no sign of a value that small. *)
Definition entropy_loss (prob : Tensor) (dim : Z) : result Tensor :=
  lg <- tmapM flog (tmap (fun p => p + eps) prob) ;;
  pl <- tmul prob lg ;;
  s <- tsum pl dim false ;;
  Ok (tmap Ropp s).

(** [F.cross_entropy(input, target, reduction="none")] on two (N, C) float
    tensors: the target holds class probabilities and the input
    unnormalised scores, taken through [log_softmax]. *)
Definition log_softmax (x : list R) : list R :=
  let lse := ln (Rsum (map exp x)) in
  map (fun xi => xi - lse) x.

Definition cross_entropy_row (x tgt : list R) : R :=
  - Rsum (zip_with Rmult tgt (log_softmax x)).

Definition cross_entropy_none (input target : Tensor) : result Tensor :=
  match shape input with
  | [N; C] =>
      if negb (bool_decide (shape target = [N; C])) then Raise RuntimeError
      else Ok (mkTensor [N]
                 (zip_with cross_entropy_row
                    (lanes N C 1 (data input)) (lanes N C 1 (data target))))
  | _ => Raise RuntimeError
  end.

Definition cross_entropy_skin_loss (skin : Tensor) : result Tensor :=
  let shape_ := shape skin in
  nbones <- match last shape_ with
            | Some n => Ok n
            | None => Raise IndexError
            end ;;
  let full_skin := skin in
  si <- tmax skin (-1) true ;;
  let score := fst si in
  let indices := snd si in
  let skin := tmap (fun _ => 0) skin in
  skin <- scatter_last skin indices (tmap (fun _ => 1) score) ;;
  input <- view_rows full_skin nbones ;;
  target <- view_rows skin nbones ;;
  cross_entropy <- cross_entropy_none input target ;;
  view cross_entropy (removelast shape_).

(** [scale_fac = (v1 * v2).sum() / (v1 * v1).sum()], replaced by
    [torch.tensor([1.0])] (of the default dtype, float32) when it compares
    below zero.  A nan compares below nothing and is returned. *)
Definition align_vectors (v1 v2 : FTensor) : result FTensor :=
  p12 <- ftmul v1 v2 ;;
  p11 <- ftmul v1 v1 ;;
  let dt := promote (fdtype p12) (fdtype p11) in
  let scale_fac :=
    fl_div dt (cast (fdtype p12) dt (ftsum_all p12))
              (cast (fdtype p11) dt (ftsum_all p11)) in
  if SFltb scale_fac fl_zero then Ok (mkFTensor float32 [1%nat] [fl_one float32])
  else Ok (mkFTensor dt [] [scale_fac]).

End LossUtils.

(** * lab4d/nnutils/deformable.py *)

(** ** Python values held in the sample and feature mappings *)

#[warnings="-register-all"]
Inductive value : Type :=
| VNone
| VTensor (t : Tensor)
| VTuple (vs : list value).

Abbreviation dict := (gmap string value).

(** [v[i]] *)
Definition getitem (v : value) (i : nat) : result value :=
  match v with
  | VNone => Raise TypeError
  | VTuple vs =>
      match vs !! i with
      | Some x => Ok x
      | None => Raise IndexError
      end
  | VTensor t =>
      match shape t with
      | [] => Raise IndexError
      | m :: s =>
          if (i <? m)%nat then Ok (VTensor (mkTensor s (chunk (numel s) i (data t))))
          else Raise IndexError
      end
  end.

(** [v[:n]] *)
Definition slice_to (v : value) (n : nat) : result value :=
  match v with
  | VNone => Raise TypeError
  | VTuple vs => Ok (VTuple (firstn n vs))
  | VTensor t =>
      match shape t with
      | [] => Raise IndexError
      | m :: s =>
          Ok (VTensor (mkTensor (Nat.min n m :: s)
                         (firstn (Nat.min n m * numel s) (data t))))
      end
  end.

Definition as_tensor (attr : string) (v : value) : result Tensor :=
  match v with
  | VTensor t => Ok t
  | _ => Raise (AttributeError attr)
  end.

(** ** Collaborators that live outside this file *)

Record Mesh : Type := mkMesh {
  vertices : list (R * R * R);
  faces : list (nat * nat * nat)
}.

(** trimesh and pysdf. *)
Record Geometry : Type := mkGeometry {
  trimesh_load : string -> result Mesh;
  euler_matrix : R -> R -> R -> list (list R);
  apply_transform : list (list R) -> Mesh -> Mesh;
  uv_sphere : R -> nat * nat -> Mesh;
  (* SDF(vertices, faces)(points): one distance per point, positive inside *)
  SDF : list (R * R * R) -> list (nat * nat * nat) -> Tensor -> result Tensor
}.

(** The warp module bound at construction.  A call takes the points, the
    frame and instance ids, [backward], [samples_dict] and [return_aux];
    [backward] and [return_aux] are [False] when a caller leaves them out.
    With [return_aux] the answer is the pair of the warped points and the
    auxiliary mapping; without it only the points count. *)
Record Warp : Type := mkWarp {
  is_SkinningWarp : bool;
  warp_call : Tensor -> value -> value -> bool -> dict -> bool
              -> result (Tensor * dict);
  get_gauss_density : Tensor -> option (value * value) -> result Tensor;
  get_gauss_sdf : Tensor -> result Tensor;
  warp_logibeta : R
}.

(** The methods of the base field [FeatureNeRF] reached through [super()]
    or inherited unchanged. *)
Record FieldBase : Type := mkFieldBase {
  super_cycle_loss : Tensor -> Tensor -> value -> value -> dict -> result dict;
  super_query_field : dict -> value -> result (dict * Tensor * dict);
  (* self.forward(pts, inst_id=None, get_density=True) *)
  forward_density : Tensor -> result Tensor
}.

(** ** The object *)

Record Deformable : Type := mkDeformable {
  base : FieldBase;
  warp : Warp;
  fg_motion : string;
  training : bool;
  opts : option (gmap string bool);
  logibeta : R;
  (* attributes that exist only once [init_proxy] has run *)
  init_geometry : option Mesh;
  proxy_geometry : option Mesh
}.

Definition set_geometry (self : Deformable) (ig pg : Mesh) : Deformable :=
  mkDeformable (base self) (warp self) (fg_motion self) (training self)
    (opts self) (logibeta self) (Some ig) (Some pg).

Definition set_fg_motion (self : Deformable) (m : string) : Deformable :=
  mkDeformable (base self) (warp self) m (training self)
    (opts self) (logibeta self) (init_geometry self) (proxy_geometry self).

Definition getattr {A : Type} (attr : string) (o : option A) : result A :=
  match o with
  | Some a => Ok a
  | None => Raise (AttributeError attr)
  end.

Section Methods.

Variable lib : Geometry.

Definition literal_geom_path : string :=
  "/pfs/mt-1oY5F7/liuguangce/program-vidu/4dcode-8.3/objs for lab4d-neus/monster/tmpbrv8we0o.obj".

Definition scale_vertices (k : R) (m : Mesh) : Mesh :=
  mkMesh (map (fun v : R * R * R =>
                 (fst (fst v) * k, snd (fst v) * k, snd v * k)) (vertices m))
         (faces m).

Definition init_proxy (self : Deformable) (geom_path : string) (init_scale : R)
  : result Deformable :=
  let geom_path := literal_geom_path in
  let init_scale := 1 / 10 in
  mesh <- trimesh_load lib geom_path ;;
  let rotation_matrix := euler_matrix lib (- PI) 0 0 in
  let mesh := apply_transform lib rotation_matrix mesh in
  let mesh := scale_vertices init_scale mesh in
  Ok (set_geometry self mesh (uv_sphere lib (12 / 100) (4%nat, 4%nat))).

(** The three closures of [get_init_sdf_fn]; [sdf_fn_torch] captures the
    geometry [sdf_fn_numpy] was built from. *)
Inductive sdf_fn : Type :=
| sdf_fn_torch (sdf_fn_numpy : Mesh)
| sdf_fn_torch_sphere
| sdf_fn_torch_skel.

Definition get_init_sdf_fn (self : Deformable) (mode : string) : result sdf_fn :=
  sdf_fn_numpy <- (if bool_decide (mode = "sphere")
                   then getattr "proxy_geometry" (proxy_geometry self)
                   else getattr "init_geometry" (init_geometry self)) ;;
  if bool_decide (mode = "sphere") then Ok sdf_fn_torch_sphere
  else Ok (sdf_fn_torch sdf_fn_numpy).

Definition radius : R := 1 / 10.

(** [t[:, None]] on a one-dimensional tensor. *)
Definition unsqueeze_last (t : Tensor) : Tensor :=
  mkTensor (shape t ++ [1%nat]) (data t).

(** What calling each closure on a batch of points does. *)
Definition call_sdf_fn (self : Deformable) (f : sdf_fn) (pts : Tensor)
  : result Tensor :=
  match f with
  | sdf_fn_torch m =>
      d <- SDF lib (vertices m) (faces m) pts ;;
      Ok (unsqueeze_last (tmap Ropp d))
  | sdf_fn_torch_sphere =>
      dis <- tsum (tmap (fun x => x ^ 2) pts) (-1) true ;;
      Ok (tmap (fun d => sqrt d - radius) dis)
  | sdf_fn_torch_skel => get_gauss_sdf (warp self) pts
  end.

(** Modelled from the spec: the decorator [train_only_fields] of
    [lab4d/utils/decorator.py], which is not part of the sources at hand.
    The decorated method runs only in training mode; otherwise it is
    skipped and an empty mapping comes back. *)
Definition train_only_fields (self : Deformable) (method : result dict)
  : result dict :=
  if training self then method else Ok ∅.

Definition norm2 (lane : list R) : R := sqrt (Rsum (map (fun x => x ^ 2) lane)).

(** [t.norm(2, dim, keepdim)] *)
Definition tnorm2 (t : Tensor) (dim : Z) (keepdim : bool) : result Tensor :=
  reduce norm2 t dim keepdim.

Definition cycle_loss (self : Deformable) (xyz xyz_t : Tensor)
    (frame_id inst_id : value) (samples_dict : dict) : result dict :=
  train_only_fields self (
    cyc_dict <- super_cycle_loss (base self) xyz xyz_t frame_id inst_id samples_dict ;;
    w <- warp_call (warp self) xyz frame_id inst_id false samples_dict true ;;
    let xyz_cycled := fst w in
    let warp_dict := snd w in
    diff <- tsub xyz_cycled xyz_t ;;
    cyc_dist <- tnorm2 diff (-1) true ;;
    let cyc_dict := <["cyc_dist" := VTensor cyc_dist]> cyc_dict in
    Ok (warp_dict ∪ cyc_dict)).

Definition compute_gauss_density (self : Deformable) (xyz : value)
    (samples_dict : dict) : result dict :=
  let gauss_field : dict := ∅ in
  if is_SkinningWarp (warp self) then
    xyz_t <- as_tensor "shape" xyz ;;
    let shape_ := removelast (shape xyz_t) in
    (* bound only when the key is there *)
    rest_articulation <-
      match samples_dict !! "rest_articulation" with
      | Some ra =>
          ra0 <- getitem ra 0 ;; a <- slice_to ra0 1 ;;
          ra1 <- getitem ra 1 ;; b <- slice_to ra1 1 ;;
          Ok (Some (a, b))
      | None => Ok None
      end ;;
    xyz_t <- view_rows xyz_t 3 ;;
    bone2obj <- match rest_articulation with
                | Some ab => Ok ab
                | None => Raise (UnboundLocalError "rest_articulation")
                end ;;
    gauss_density <- get_gauss_density (warp self) xyz_t (Some bone2obj) ;;
    let gauss_density :=
      tmap (fun d => d * exp (warp_logibeta (warp self))) gauss_density in
    gd <- view gauss_density (shape_ ++ [1%nat]) ;;
    Ok (<["gauss_density" := VTensor gd]> gauss_field)
  else Ok gauss_field.

Definition query_field (self : Deformable) (samples_dict : dict)
    (flow_thresh : value) : result (dict * Tensor * dict) :=
  q <- super_query_field (base self) samples_dict flow_thresh ;;
  let feat_dict := fst (fst q) in
  let deltas := snd (fst q) in
  let aux_dict := snd q in
  o <- match opts self with
       | Some o => Ok o
       | None => Raise TypeError
       end ;;
  two_branch <- match o !! "two_branch" with
                | Some b => Ok b
                | None => Raise (KeyError "two_branch")
                end ;;
  if negb two_branch then
    xyz <- match feat_dict !! "xyz" with
           | Some v => Ok v
           | None => Raise (KeyError "xyz")
           end ;;
    gauss_field <- compute_gauss_density self xyz samples_dict ;;
    Ok (gauss_field ∪ feat_dict, deltas, aux_dict)
  else Ok (feat_dict, deltas, aux_dict).

(** [F.binary_cross_entropy(input, target, weight)], mean reduction.  The
    logarithms are clamped from below at -100; an input outside [0, 1] is
    refused. *)
Definition clamped_log (x : R) : R :=
  if Rlt_dec 0 x then Rmax (ln x) (-100) else -100.

Definition bce_term (x y w : R) : R :=
  - w * (y * clamped_log x + (1 - y) * clamped_log (1 - x)).

Definition in_unit (x : R) : bool :=
  if Rle_dec 0 x then (if Rle_dec x 1 then true else false) else false.

Definition binary_cross_entropy (input target weight : Tensor) : result R :=
  if negb (bool_decide (shape input = shape target)) then Raise RuntimeError
  else if negb (forallb in_unit (data input)) then Raise RuntimeError
  else
    s <- broadcast_shapes (shape weight) (shape target) ;;
    if negb (bool_decide (s = shape target)) then Raise RuntimeError
    else
      let w := expand (pad_shape (shape weight) (length s)) s (data weight) in
      tmean_all
        (mkTensor s
           (zip_with (fun x yw => bce_term x (fst yw) (snd yw)) (data input)
              (zip (data target) w))).

Definition floor6 : R := 1 / 1000000.

(** Lines 245-247: the class weights and the per-point weight. *)
Definition balance_weights (density : Tensor) : result (R * R * Tensor) :=
  m <- tmean_all density ;;
  weight_pos <- fdiv (1 / 2) (floor6 + m) ;;
  m' <- tmean_all (tmap (fun d => floor6 + 1 - d) density) ;;
  weight_neg <- fdiv (1 / 2) m' ;;
  let weight :=
    tmap (fun d => d * weight_pos + (1 - d) * weight_neg) density in
  Ok (weight_pos, weight_neg, weight).

(** [pts] is the batch [sample_points_aabb(nsample, extend_factor=0.25)]
    drew. *)
Definition gauss_skin_consistency_loss (self : Deformable) (pts : Tensor)
  : result R :=
  density_gauss <- get_gauss_density (warp self) pts None ;;
  density <- forward_density (base self) pts ;;
  let density := tmap (fun d => d / exp (logibeta self)) density in
  w <- balance_weights density ;;
  binary_cross_entropy density_gauss density (snd w).

End Methods.


(** * Notions the statements are phrased in *)

(** The dot product as the floats compute it. *)
Definition fl_dot (dt : dtype) (u v : list spec_float) : spec_float :=
  fsum dt (zip_with (fl_mul dt) u v).

Definition finite_nonzero (x : spec_float) : bool :=
  match x with
  | S754_finite _ _ _ => true
  | _ => false
  end.

(** A float that is not below zero: a square, or a sum of squares. *)
Definition sign_free (x : spec_float) : Prop :=
  match x with
  | S754_zero s | S754_infinity s | S754_finite s _ _ => s = false
  | S754_nan => True
  end.

(** [a'] is the negation of [a], or both are the zero a sum starts from. *)
Definition mirror (a' a : spec_float) : Prop :=
  a' = SFopp a \/ (a = S754_zero false /\ a' = S754_zero false).

Definition is_zero (x : spec_float) : bool :=
  match x with
  | S754_zero _ => true
  | _ => false
  end.

(** The entropy of one distribution, in the words of the specification:
    [-sum(p * log(p + eps))]. *)
Definition entropy_spec (p : list R) : R :=
  - Rsum (map (fun x => x * ln (x + LossUtils.eps)) p).

Definition distribution (p : list R) : Prop :=
  Forall (fun x => 0 <= x) p /\ Rsum p = 1.

Definition one_hot (B k : nat) : list R := <[k := 1]> (repeat 0 B).

Definition uniform (B : nat) : list R := repeat (1 / INR B) B.

(** Position of the first maximal entry of a row. *)
Definition argmax (r : list R) : nat :=
  match r with
  | [] => 0%nat
  | x :: l => snd (argmax_from x 0 1 l)
  end.

(** Cross-entropy of the softmax of a row of scores against the one-hot
    target at its arg-max. *)
Definition hard_assignment_ce (r : list R) : R :=
  LossUtils.cross_entropy_row r (one_hot (length r) (argmax r)).


(** Euclidean distance between two points. *)
Definition euclid_dist (p q : list R) : R :=
  sqrt (Rsum (zip_with (fun a b => (a - b) * (a - b)) p q)).

Definition mean (l : list R) : R := Rsum l / INR (length l).

(** An articulation tensor (M, B, 4) cut down to its first pose. *)
Definition first_pose (t : Tensor) : Tensor :=
  mkTensor (1%nat :: tl (shape t)) (firstn (numel (tl (shape t))) (data t)).

(** An object has its geometry once [init_proxy] has run. *)
Definition has_geometry (self : Deformable) : Prop :=
  is_Some (init_geometry self) /\ is_Some (proxy_geometry self).

(** ** A small concrete object *)

Module Sample.

Definition mesh0 : Mesh := mkMesh [(0, 0, 0); (1, 0, 0); (0, 1, 0)] [(0, 1, 2)%nat].

Definition lib : Geometry :=
  mkGeometry (fun _ => Ok mesh0) (fun _ _ _ => []) (fun _ m => m)
    (fun _ _ => mesh0) (fun _ _ pts => Ok (mkTensor [1%nat] [0])).

Definition skel_warp : Warp :=
  mkWarp true (fun xyz _ _ _ _ _ => Ok (xyz, ∅))
    (fun _ _ => Ok (mkTensor [1%nat; 1%nat] [1 / 2]))
    (fun pts => Ok pts) 0.

Definition field_base : FieldBase :=
  mkFieldBase
    (fun _ _ _ _ _ => Ok ∅)
    (fun _ _ => Ok ({[ "xyz" := VTensor (mkTensor [1%nat; 3%nat] [0; 0; 0]) ]},
                    mkTensor [1%nat] [1], ∅))
    (fun _ => Ok (mkTensor [1%nat; 1%nat] [1 / 2])).

Definition obj : Deformable :=
  mkDeformable field_base skel_warp "skel-human" true
    (Some {[ "two_branch" := false ]}) 0 (Some mesh0) (Some mesh0).

Definition rest : value :=
  VTuple [VTensor (mkTensor [1%nat; 1%nat; 4%nat] [1; 0; 0; 0]);
          VTensor (mkTensor [1%nat; 1%nat; 4%nat] [0; 0; 0; 0])].

Definition samples : dict := {[ "rest_articulation" := rest ]}.

End Sample.

(** * Further methods of the deformable field *)

(** ** Collaborators they reach *)

(** The coordinate transforms of the base field.  [cam_to_field] answers
    the points and the directions in field space. *)
Record Camera : Type := mkCamera {
  cam_to_field : Tensor -> Tensor -> value -> result (Tensor * Tensor);
  field_to_cam : Tensor -> value -> result Tensor
}.

(** [self.warp.articulation] of a skinning warp. *)
Record Articulation : Type := mkArticulation {
  get_mean_vals : result value;
  (* get_vals(frame_id, override_so3=...) *)
  get_vals : value -> option value -> result value;
  (* get_vals_and_mean(frame_id): the time-t values, then the mean *)
  get_vals_and_mean : value -> result (value * value);
  has_init_vals : bool
}.

Definition getkey (d : dict) (k : string) : result value :=
  match d !! k with
  | Some v => Ok v
  | None => Raise (KeyError k)
  end.

Section MoreMethods.

Variable cam : Camera.

(** [super().get_samples(Kinv, batch)] *)
Variable super_get_samples : value -> dict -> result dict.

(** [self.warp.articulation], absent on a warp without a skeleton. *)
Variable articulation : option Articulation.

Definition backward_warp (self : Deformable) (xyz_cam dir_cam : Tensor)
    (field2cam frame_id inst_id : value) (samples_dict : dict) : result dict :=
  td <- cam_to_field cam xyz_cam dir_cam field2cam ;;
  let xyz_t := fst td in
  let dir := snd td in
  w <- warp_call (warp self) xyz_t frame_id inst_id true samples_dict true ;;
  let xyz := fst w in
  let warp_dict := snd w in
  let backwarp_dict : dict :=
    <["xyz_t" := VTensor xyz_t]>
      (<["dir" := VTensor dir]> (<["xyz" := VTensor xyz]> ∅)) in
  Ok (warp_dict ∪ backwarp_dict).

Definition forward_warp (self : Deformable) (xyz : Tensor)
    (field2cam frame_id inst_id : value) (samples_dict : dict) : result Tensor :=
  w <- warp_call (warp self) xyz frame_id inst_id false samples_dict false ;;
  let xyz_next := fst w in
  field_to_cam cam xyz_next field2cam.

Definition get_samples (self : Deformable) (Kinv : value) (batch : dict)
  : result dict :=
  samples_dict <- super_get_samples Kinv batch ;;
  if is_SkinningWarp (warp self) then
    inst_id <- getkey samples_dict "inst_id" ;;
    frame_id <- getkey samples_dict "frame_id" ;;
    match batch !! "joint_so3" with
    | Some override_so3 =>
        a <- getattr "articulation" articulation ;;
        rest <- get_mean_vals a ;;
        let samples_dict := <["rest_articulation" := rest]> samples_dict in
        t <- get_vals a frame_id (Some override_so3) ;;
        Ok (<["t_articulation" := t]> samples_dict)
    | None =>
        a <- getattr "articulation" articulation ;;
        tr <- get_vals_and_mean a frame_id ;;
        Ok (<["rest_articulation" := snd tr]>
              (<["t_articulation" := fst tr]> samples_dict))
    end
  else Ok samples_dict.



End MoreMethods.

(** ** More concrete collaborators *)

Module SampleMore.

Definition cam : Camera :=
  mkCamera (fun xyz dir _ => Ok (xyz, dir)) (fun xyz _ => Ok xyz).

Definition art : Articulation :=
  mkArticulation (Ok Sample.rest) (fun _ _ => Ok Sample.rest)
    (fun _ => Ok (Sample.rest, Sample.rest)) true.

Definition super_get_samples (Kinv : value) (batch : dict) : result dict :=
  Ok (<["inst_id" := VNone]> (<["frame_id" := VNone]> ∅)).

Definition rigid_warp : Warp :=
  mkWarp false (fun xyz _ _ _ _ _ => Ok (xyz, ∅))
    (fun _ _ => Raise (AttributeError "get_gauss_density"))
    (fun pts => Ok pts) 0.

Definition rigid_obj : Deformable :=
  mkDeformable Sample.field_base rigid_warp "rigid" false None 0 None None.

Definition two_branch_obj : Deformable :=
  mkDeformable Sample.field_base Sample.skel_warp "skel-human" true
    (Some {[ "two_branch" := true ]}) 0 None None.

Definition rigid_query_obj : Deformable :=
  mkDeformable Sample.field_base rigid_warp "rigid" true
    (Some {[ "two_branch" := false ]}) 0 None None.

(** Two poses; the first is the pose of [Sample.rest]. *)
Definition rest_two_poses : value :=
  VTuple [VTensor (mkTensor [2%nat; 1%nat; 4%nat] [1; 0; 0; 0; 0; 1; 0; 0]);
          VTensor (mkTensor [2%nat; 1%nat; 4%nat] [0; 0; 0; 0; 5; 5; 5; 0])].

Definition samples_two_poses : dict :=
  <["frame_id" := VNone]> {[ "rest_articulation" := rest_two_poses ]}.

End SampleMore.

(** A batch that is almost empty of the object: two samples, of rescaled
    density 0 and 2e-6. *)
Module SampleSparse.

Definition raw_density : Tensor := mkTensor [2%nat; 1%nat] [0; 2 / 1000000].

Definition field_base : FieldBase :=
  mkFieldBase
    (fun _ _ _ _ _ => Ok ∅)
    (fun _ _ => Ok (∅, mkTensor [1%nat] [1], ∅))
    (fun _ => Ok raw_density).

Definition obj : Deformable :=
  mkDeformable field_base Sample.skel_warp "skel-human" true
    (Some {[ "two_branch" := false ]}) 0 None None.

End SampleSparse.
(** * Facts about the tensor layer *)

Section TensorFacts.

Lemma concat_length_uniform (B : nat) (rows : list (list R)) :
  Forall (fun r => length r = B) rows ->
  length (concat rows) = (length rows * B)%nat.
Proof.
  induction 1 as [|r rs Hr _ IH]; simpl; [reflexivity|].
  rewrite length_app, IH, Hr. reflexivity.
Qed.

Lemma map_nth_id (l pre post : list R) :
  map (fun j => nth (length pre + j) (pre ++ l ++ post) 0) (seq 0 (length l)) = l.
Proof.
  revert pre. induction l as [|x l IH]; intros pre; [reflexivity|].
  cbn [length seq map]. f_equal.
  - rewrite Nat.add_0_r. cbn [app]. apply nth_middle.
  - rewrite <- seq_shift, map_map.
    rewrite <- (IH (pre ++ [x])) at 2.
    apply map_ext. intros j.
    rewrite <- app_assoc. cbn [app]. f_equal.
    rewrite length_app. cbn [length]. lia.
Qed.

Lemma lanes_last_aux (B : nat) (rows pre : list (list R)) :
  Forall (fun r => length r = B) rows ->
  Forall (fun r => length r = B) pre ->
  flat_map (fun p =>
    map (fun q => map (fun j => nth ((p * B + j) * 1 + q) (concat (pre ++ rows)) 0)
                   (seq 0 B)) (seq 0 1))
    (seq (length pre) (length rows)) = rows.
Proof.
  intros Hrows. revert pre.
  induction Hrows as [|r rs Hr Hrs IH]; intros pre Hpre; [reflexivity|].
  cbn [length seq flat_map map app]. f_equal.
  - rewrite concat_app. cbn [concat].
    subst B. etransitivity; [|apply (map_nth_id r (concat pre) (concat rs))].
    apply map_ext. intros j. f_equal.
    rewrite (concat_length_uniform (length r) pre Hpre). lia.
  - specialize (IH (pre ++ [r])).
    rewrite <- app_assoc in IH. cbn [app] in IH.
    rewrite length_app in IH. cbn [length] in IH.
    replace (length pre + 1)%nat with (S (length pre)) in IH by lia.
    apply IH. apply Forall_app. split; [exact Hpre|]. constructor; [exact Hr|constructor].
Qed.

(** Along the last axis the lanes are the rows. *)
Lemma lanes_last (B : nat) (rows : list (list R)) :
  Forall (fun r => length r = B) rows ->
  lanes (length rows) B 1 (concat rows) = rows.
Proof.
  intros H. apply (lanes_last_aux B rows []); [exact H | constructor].
Qed.

End TensorFacts.

Section BroadcastFacts.

Lemma flat_map_chunks (g : list R -> list R) (n a : nat) (d : list R) :
  (forall c, length c = n -> g c = c) ->
  length d = (a * n)%nat ->
  flat_map (fun i => g (chunk n i d)) (seq 0 a) = d.
Proof.
  intros Hg. revert d. induction a as [|a IH]; intros d Hd.
  - destruct d; [reflexivity|discriminate].
  - cbn [seq flat_map]. rewrite <- seq_shift, flat_map_concat_map, map_map,
      <- flat_map_concat_map.
    transitivity (firstn n d ++ skipn n d); [|apply firstn_skipn]. f_equal.
    + unfold chunk. cbn [Nat.mul skipn]. apply Hg.
      rewrite length_firstn. lia.
    + etransitivity; [|apply (IH (skipn n d)); rewrite length_skipn; lia].
      apply flat_map_ext. intros i. unfold chunk. f_equal. f_equal.
      rewrite skipn_skipn. f_equal. lia.
Qed.

Lemma expand_same (s : list nat) (d : list R) :
  length d = numel s -> expand s s d = d.
Proof.
  revert d. induction s as [|a s IH]; intros d Hd; [reflexivity|].
  cbn [expand]. rewrite Nat.eqb_refl.
  apply flat_map_chunks; [exact IH|]. exact Hd.
Qed.

Lemma broadcast_rev_same (s : list nat) : broadcast_rev s s = Ok s.
Proof.
  induction s as [|a s IH]; [reflexivity|].
  cbn [broadcast_rev]. rewrite IH. cbn [bind]. rewrite Nat.eqb_refl. reflexivity.
Qed.

Lemma broadcast_shapes_same (s : list nat) : broadcast_shapes s s = Ok s.
Proof.
  unfold broadcast_shapes. rewrite broadcast_rev_same. cbn [bind].
  rewrite rev_involutive. reflexivity.
Qed.

Lemma pad_shape_same (s : list nat) : pad_shape s (length s) = s.
Proof. unfold pad_shape. rewrite Nat.sub_diag. reflexivity. Qed.

(** On operands of one shape an element-wise operation pairs the entries. *)
Lemma tbinop_same_shape (f : R -> R -> R) (a b : Tensor) :
  shape b = shape a -> wf a -> wf b ->
  tbinop f a b = Ok (mkTensor (shape a) (zip_with f (data a) (data b))).
Proof.
  intros Hs Ha Hb. unfold tbinop. rewrite Hs, broadcast_shapes_same.
  cbn [bind]. rewrite pad_shape_same, !expand_same; [reflexivity| |].
  - unfold wf in Hb. rewrite Hs in Hb. exact Hb.
  - exact Ha.
Qed.

Lemma wrap_dim_last (n : nat) : wrap_dim (S n) (-1) = Ok n.
Proof.
  unfold wrap_dim.
  destruct ((0 <=? -1)%Z && (-1 <? Z.max 1 (Z.of_nat (S n)))%Z) eqn:E1.
  - apply andb_true_iff in E1. destruct E1 as [E1 _]. discriminate.
  - replace ((- Z.max 1 (Z.of_nat (S n)) <=? -1)%Z && (-1 <? 0)%Z) with true.
    + f_equal. lia.
    + symmetry. apply andb_true_iff. split; [apply Z.leb_le; lia|reflexivity].
Qed.

(** Reducing the last axis of a tensor given by its rows reduces each row. *)
Lemma reduce_last (f : list R -> R) (pre : list nat) (B : nat)
    (rows : list (list R)) (keepdim : bool) :
  length rows = numel pre ->
  Forall (fun r => length r = B) rows ->
  reduce f (mkTensor (pre ++ [B]) (concat rows)) (-1) keepdim
  = Ok (mkTensor (pre ++ (if keepdim then [1%nat] else [])) (map f rows)).
Proof.
  intros Hlen Hrows. unfold reduce. cbn [shape data].
  rewrite length_app. cbn [length]. rewrite Nat.add_1_r, wrap_dim_last.
  cbn [bind].
  assert (Hne : exists x l, pre ++ [B] = x :: l).
  { destruct pre; simpl; eauto. }
  destruct Hne as (x & l & Hxl). rewrite Hxl at 1. rewrite <- Hxl.
  rewrite firstn_app, firstn_all, Nat.sub_diag. cbn [firstn].
  rewrite app_nil_r.
  replace (skipn (S (length pre)) (pre ++ [B])) with (@nil nat).
  2:{ symmetry. apply skipn_all2. rewrite length_app. cbn. lia. }
  rewrite app_nth2, Nat.sub_diag by lia. cbn [nth numel fold_right].
  rewrite app_nil_r. rewrite <- Hlen, lanes_last by exact Hrows.
  reflexivity.
Qed.

End BroadcastFacts.

(** * Facts about sums *)

Section SumFacts.

Lemma Rsum_app (l1 l2 : list R) : Rsum (l1 ++ l2) = Rsum l1 + Rsum l2.
Proof. induction l1 as [|x l IH]; simpl; [lra|rewrite IH; lra]. Qed.

Lemma Rsum_repeat (x : R) (n : nat) : Rsum (repeat x n) = INR n * x.
Proof.
  induction n as [|n IH]; [simpl; lra|].
  cbn [repeat Rsum fold_right]. fold (Rsum (repeat x n)).
  rewrite IH, S_INR. lra.
Qed.

Lemma Rsum_map_le (f g : R -> R) (l : list R) :
  Forall (fun x => f x <= g x) l -> Rsum (map f l) <= Rsum (map g l).
Proof. induction 1; simpl; lra. Qed.

Lemma Rsum_map_plus (f g : R -> R) (l : list R) :
  Rsum (map (fun x => f x + g x) l) = Rsum (map f l) + Rsum (map g l).
Proof. induction l as [|x l IH]; simpl; [lra|rewrite IH; lra]. Qed.

Lemma Rsum_map_scal (c : R) (f : R -> R) (l : list R) :
  Rsum (map (fun x => c * f x) l) = c * Rsum (map f l).
Proof. induction l as [|x l IH]; simpl; [lra|rewrite IH; lra]. Qed.


Lemma Rsum_sq_nonneg (l : list R) : 0 <= Rsum (map (fun x => x * x) l).
Proof. induction l as [|x l IH]; simpl; [lra|nra]. Qed.

Lemma Rsum_sq_pos (l : list R) :
  Exists (fun x => x <> 0) l -> 0 < Rsum (map (fun x => x * x) l).
Proof.
  induction 1 as [x l Hx|x l _ IH]; simpl.
  - pose proof (Rsum_sq_nonneg l). nra.
  - nra.
Qed.


Lemma zip_with_map_r (f : R -> R -> R) (g : R -> R) (l : list R) :
  zip_with f l (map g l) = map (fun x => f x (g x)) l.
Proof. induction l as [|x l IH]; simpl; [reflexivity|rewrite IH; reflexivity]. Qed.

End SumFacts.

Section RowFacts.

Lemma numel_app (a b : list nat) : numel (a ++ b) = (numel a * numel b)%nat.
Proof.
  unfold numel. induction a as [|x a IH]; simpl; [lia|].
  rewrite IH. lia.
Qed.

Lemma wf_rows (pre : list nat) (B : nat) (rows : list (list R)) :
  length rows = numel pre ->
  Forall (fun r => length r = B) rows ->
  wf (mkTensor (pre ++ [B]) (concat rows)).
Proof.
  intros Hlen Hrows. unfold wf. cbn [shape data].
  rewrite (concat_length_uniform B rows Hrows), numel_app, Hlen.
  cbn. lia.
Qed.

Lemma uniform_map (f : R -> R) (B : nat) (rows : list (list R)) :
  Forall (fun r => length r = B) rows ->
  Forall (fun r => length r = B) (map (map f) rows).
Proof.
  intros H. apply Forall_map. eapply Forall_impl; [exact H|].
  intros r Hr. cbn. rewrite length_map. exact Hr.
Qed.

End RowFacts.

(** * loss_utils: entropy *)

Section Entropy.

Import LossUtils.

Lemma eps_pos : 0 < eps.
Proof. unfold eps. lra. Qed.

Lemma ln_le_minus1 (x : R) : 0 < x -> ln x <= x - 1.
Proof.
  intros Hx. pose proof (exp_ineq1_le (ln x)) as H.
  rewrite exp_ln in H by exact Hx. lra.
Qed.

Lemma ln1p_bounds (y : R) : 0 <= y -> 0 <= ln (1 + y) <= y.
Proof.
  intros Hy. split.
  - destruct Hy as [Hy| <-].
    + rewrite <- ln_1. left. apply ln_increasing; lra.
    + rewrite Rplus_0_r, ln_1. lra.
  - pose proof (ln_le_minus1 (1 + y)). lra.
Qed.

Lemma mapM_flog_pos (l : list R) :
  Forall (fun x => 0 < x) l -> mapM flog l = Ok (map ln l).
Proof.
  induction 1 as [|x l Hx _ IH]; [reflexivity|].
  cbn [mapM map]. unfold flog at 1.
  destruct (Rlt_dec 0 x); [|contradiction].
  cbn [bind]. rewrite IH. reflexivity.
Qed.

Lemma Forall_concat_uniform {A : Type} (P : A -> Prop) (rows : list (list A)) :
  Forall (Forall P) rows -> Forall P (concat rows).
Proof.
  induction 1 as [|r rs Hr _ IH]; cbn [concat]; [constructor|].
  apply Forall_app. split; assumption.
Qed.

End Entropy.

Section EntropyAxis.

Import LossUtils.

Lemma lanes_map (g : R -> R) (pre n post : nat) (d : list R) :
  g 0 = 0 ->
  lanes pre n post (map g d) = map (map g) (lanes pre n post d).
Proof.
  intros Hg. unfold lanes.
  induction (seq 0 pre) as [|p ps IH]; [reflexivity|].
  cbn [flat_map]. rewrite map_app, IH. f_equal.
  rewrite map_map. apply map_ext. intros q.
  rewrite map_map. apply map_ext. intros j.
  rewrite <- Hg at 1. apply map_nth.
Qed.

Lemma lanes_length (pre n post : nat) (d : list R) :
  Forall (fun r => length r = n) (lanes pre n post d).
Proof.
  unfold lanes. apply List.Forall_forall. intros r Hr.
  apply in_flat_map in Hr. destruct Hr as (p & _ & Hr).
  apply in_map_iff in Hr. destruct Hr as (q & <- & _).
  rewrite length_map, length_seq. reflexivity.
Qed.

Lemma lanes_nonneg (pre n post : nat) (d : list R) :
  Forall (fun x => 0 <= x) d ->
  Forall (Forall (fun x => 0 <= x)) (lanes pre n post d).
Proof.
  intros Hd. unfold lanes. apply List.Forall_forall. intros r Hr.
  apply in_flat_map in Hr. destruct Hr as (p & _ & Hr).
  apply in_map_iff in Hr. destruct Hr as (q & <- & _).
  apply List.Forall_forall. intros x Hx.
  apply in_map_iff in Hx. destruct Hx as (j & <- & _).
  destruct (Nat.lt_ge_cases ((p * n + j) * post + q) (length d)) as [Hlt|Hge].
  - rewrite List.Forall_forall in Hd. apply Hd, nth_In, Hlt.
  - rewrite nth_overflow by exact Hge. lra.
Qed.

Lemma nth_concat_uniform (P : nat) (rows : list (list R)) (j q : nat) :
  Forall (fun r => length r = P) rows -> (q < P)%nat ->
  nth (j * P + q) (concat rows) 0 = nth q (nth j rows []) 0.
Proof.
  intros Hrows Hq. revert j.
  induction Hrows as [|r rs Hr _ IH]; intros j.
  - cbn [concat]. rewrite !nth_overflow by (cbn; lia).
    destruct j; destruct q; reflexivity.
  - cbn [concat]. destruct j as [|j].
    + cbn [Nat.mul Nat.add nth]. apply app_nth1. lia.
    + cbn [nth]. rewrite app_nth2 by (rewrite Hr; cbn; lia).
      rewrite <- IH. f_equal. rewrite Hr. cbn. lia.
Qed.

Lemma map_seq_nth {A C : Type} (f : A -> C) (l : list A) (d : A) :
  map (fun j => f (nth j l d)) (seq 0 (length l)) = map f l.
Proof.
  induction l as [|x l IH]; [reflexivity|].
  cbn [length seq map nth]. f_equal.
  rewrite <- seq_shift, map_map. exact IH.
Qed.

(** Along the first axis the lanes are the columns of the slabs. *)
Lemma lanes_first (P : nat) (rows : list (list R)) :
  Forall (fun r => length r = P) rows ->
  lanes 1 (length rows) P (concat rows)
  = map (fun q => map (fun r => nth q r 0) rows) (seq 0 P).
Proof.
  intros Hrows. unfold lanes. cbn [seq flat_map]. rewrite app_nil_r.
  apply map_ext_in. intros q Hq. apply in_seq in Hq.
  rewrite <- (map_seq_nth (fun r => nth q r 0) rows []).
  apply map_ext. intros j. cbn [Nat.mul Nat.add].
  apply nth_concat_uniform; [exact Hrows|lia].
Qed.

Lemma wrap_dim_axis (pre : list nat) (B : nat) (post : list nat) (dim : Z) :
  (dim = Z.of_nat (length pre)
   \/ dim = Z.of_nat (length pre) - Z.of_nat (length (pre ++ B :: post)))%Z ->
  wrap_dim (length (pre ++ B :: post)) dim = Ok (length pre).
Proof.
  rewrite length_app. cbn [length]. intros Hdim. unfold wrap_dim.
  set (n := Z.max 1 (Z.of_nat (length pre + S (length post)))).
  assert (Hn : n = Z.of_nat (length pre + S (length post))) by (subst n; lia).
  destruct Hdim as [-> | ->].
  - replace ((0 <=? Z.of_nat (length pre))%Z && (Z.of_nat (length pre) <? n)%Z)
      with true.
    + f_equal. lia.
    + symmetry. apply andb_true_iff.
      split; [apply Z.leb_le|apply Z.ltb_lt]; lia.
  - set (dm := (Z.of_nat (length pre)
                - Z.of_nat (length pre + S (length post)))%Z).
    assert (Hneg : (dm < 0)%Z) by (subst dm; lia).
    replace ((0 <=? dm)%Z) with false by (symmetry; apply Z.leb_gt; exact Hneg).
    cbn [andb].
    replace ((- n <=? dm)%Z && (dm <? 0)%Z) with true.
    + f_equal. subst dm. lia.
    + symmetry. apply andb_true_iff.
      split; [apply Z.leb_le|apply Z.ltb_lt]; subst dm; lia.
Qed.

Lemma wrap_dim_out_of_range (n : nat) (dim : Z) :
  (dim < - Z.max 1 (Z.of_nat n) \/ Z.max 1 (Z.of_nat n) <= dim)%Z ->
  wrap_dim n dim = Raise IndexError.
Proof.
  intros Hdim. unfold wrap_dim.
  replace ((0 <=? dim)%Z && (dim <? Z.max 1 (Z.of_nat n))%Z) with false.
  - replace ((- Z.max 1 (Z.of_nat n) <=? dim)%Z && (dim <? 0)%Z) with false;
      [reflexivity|].
    symmetry. apply andb_false_iff.
    destruct Hdim; [left; apply Z.leb_gt|right; apply Z.ltb_ge]; lia.
  - symmetry. apply andb_false_iff.
    destruct Hdim; [left; apply Z.leb_gt|right; apply Z.ltb_ge]; lia.
Qed.

Lemma axis_parts (pre : list nat) (B : nat) (post : list nat) :
  firstn (length pre) (pre ++ B :: post) = pre
  /\ skipn (S (length pre)) (pre ++ B :: post) = post
  /\ nth (length pre) (pre ++ B :: post) 1%nat = B.
Proof.
  split; [|split].
  - rewrite firstn_app, firstn_all, Nat.sub_diag. cbn. apply app_nil_r.
  - replace (pre ++ B :: post) with ((pre ++ [B]) ++ post)
      by (rewrite <- app_assoc; reflexivity).
    replace (S (length pre)) with (length (pre ++ [B]))
      by (rewrite length_app; cbn; lia).
    rewrite skipn_app, skipn_all, Nat.sub_diag. reflexivity.
  - rewrite app_nth2, Nat.sub_diag by lia. reflexivity.
Qed.

(** Reducing one axis of a tensor reduces each of its lanes. *)
Lemma reduce_axis (f : list R -> R) (pre : list nat) (B : nat)
    (post : list nat) (d : list R) (dim : Z) :
  (dim = Z.of_nat (length pre)
   \/ dim = Z.of_nat (length pre) - Z.of_nat (length (pre ++ B :: post)))%Z ->
  reduce f (mkTensor (pre ++ B :: post) d) dim false
  = Ok (mkTensor (pre ++ post)
          (map f (lanes (numel pre) B (numel post) d))).
Proof.
  intros Hdim. unfold reduce. cbn [shape data].
  rewrite (wrap_dim_axis pre B post dim Hdim). cbn [bind].
  destruct (axis_parts pre B post) as (H1 & H2 & H3).
  assert (Hne : exists x l, pre ++ B :: post = x :: l).
  { destruct pre; simpl; eauto. }
  destruct Hne as (x & l & Hxl). rewrite Hxl at 1. rewrite <- Hxl.
  rewrite H1, H2, H3. reflexivity.
Qed.

(** The products [p * log(p + 1e-9)] of a tensor of non-negative entries. *)
Lemma entropy_terms (t : Tensor) :
  wf t -> Forall (fun x => 0 <= x) (data t) ->
  (lg <- tmapM flog (tmap (fun p => p + eps) t) ;; tmul t lg)
  = Ok (mkTensor (shape t) (map (fun x => x * ln (x + eps)) (data t))).
Proof.
  intros Hw Hnn. unfold tmapM, tmap. cbn [data shape].
  rewrite mapM_flog_pos.
  2:{ apply Forall_map. eapply Forall_impl; [exact Hnn|].
      intros x Hx. cbn. pose proof eps_pos. lra. }
  cbn [bind]. unfold tmul. rewrite tbinop_same_shape; cbn [shape data].
  2:{ reflexivity. }
  2:{ exact Hw. }
  2:{ unfold wf in *. cbn [data shape]. rewrite !length_map. exact Hw. }
  rewrite map_map, zip_with_map_r. reflexivity.
Qed.

(** [entropy_loss] along any axis: each lane along the axis gets
    [-sum(p * log(p + 1e-9))]. *)
Lemma entropy_loss_axis (pre : list nat) (B : nat) (post : list nat)
    (d : list R) (dim : Z) :
  length d = numel (pre ++ B :: post) ->
  Forall (fun x => 0 <= x) d ->
  (dim = Z.of_nat (length pre)
   \/ dim = Z.of_nat (length pre) - Z.of_nat (length (pre ++ B :: post)))%Z ->
  entropy_loss (mkTensor (pre ++ B :: post) d) dim
  = Ok (mkTensor (pre ++ post)
          (map entropy_spec (lanes (numel pre) B (numel post) d))).
Proof.
  intros Hw Hnn Hdim. unfold entropy_loss.
  pose proof (entropy_terms (mkTensor (pre ++ B :: post) d) Hw Hnn) as Ht.
  cbn [shape data] in Ht.
  destruct (tmapM flog (tmap (fun p => p + eps) (mkTensor (pre ++ B :: post) d)))
    as [lg|e]; cbn [bind] in Ht |- *; [|discriminate].
  rewrite Ht. cbn [bind]. unfold tsum.
  rewrite (reduce_axis Rsum pre B post _ dim Hdim). cbn [bind]. unfold tmap.
  cbn [shape data]. f_equal. f_equal.
  rewrite lanes_map by lra. rewrite !map_map. reflexivity.
Qed.

Lemma entropy_loss_bad_axis (t : Tensor) (dim : Z) :
  wf t -> Forall (fun x => 0 <= x) (data t) ->
  (dim < - Z.max 1 (Z.of_nat (length (shape t)))
   \/ Z.max 1 (Z.of_nat (length (shape t))) <= dim)%Z ->
  entropy_loss t dim = Raise IndexError.
Proof.
  intros Hw Hnn Hdim. unfold entropy_loss.
  pose proof (entropy_terms t Hw Hnn) as Ht.
  destruct (tmapM flog (tmap (fun p => p + eps) t))
    as [lg|e]; cbn [bind] in Ht |- *; [|discriminate].
  rewrite Ht. cbn [bind]. unfold tsum, reduce. cbn [shape].
  rewrite (wrap_dim_out_of_range _ dim Hdim). reflexivity.
Qed.

End EntropyAxis.

Section EntropyClaim.

Import LossUtils.

Lemma Rsum_map_affine (a c : R) (l : list R) :
  Rsum (map (fun x => a * x + c) l) = a * Rsum l + INR (length l) * c.
Proof.
  induction l as [|x l IH]; [simpl; lra|].
  cbn [map Rsum fold_right length].
  fold (Rsum (map (fun x => a * x + c) l)). fold (Rsum l).
  rewrite IH, S_INR. lra.
Qed.

Lemma distribution_nonempty (p : list R) : distribution p -> (0 < length p)%nat.
Proof.
  intros [_ Hs]. destruct p; [simpl in Hs; lra|simpl; lia].
Qed.

Lemma entropy_term_bound (B x : R) :
  0 < B -> 0 <= x -> (1 - ln B) * x + - / B <= x * ln (x + eps).
Proof.
  intros HB Hx. pose proof eps_pos as He.
  assert (Hy : 0 < (x + eps) * B) by nra.
  pose proof (ln_le_minus1 (/ ((x + eps) * B)) (Rinv_0_lt_compat _ Hy)) as Hln.
  rewrite ln_Rinv, ln_mult in Hln by lra.
  assert (Hq : x * / ((x + eps) * B) <= / B).
  { rewrite Rinv_mult. rewrite <- Rmult_assoc.
    assert (x * / (x + eps) <= 1).
    { apply (Rmult_le_reg_r (x + eps)); [lra|].
      rewrite Rmult_assoc, Rinv_l by lra. lra. }
    assert (0 < / B) by (apply Rinv_0_lt_compat; lra).
    nra. }
  assert (Hm : x * (- (ln (x + eps) + ln B)) <= x * (/ ((x + eps) * B) - 1)).
  { apply Rmult_le_compat_l; lra. }
  lra.
Qed.

(** The entropy of a distribution over [B] categories is at most [ln B]. *)
Lemma entropy_le_ln (p : list R) :
  distribution p -> entropy_spec p <= ln (INR (length p)).
Proof.
  intros Hd. pose proof (distribution_nonempty p Hd) as Hlen.
  destruct Hd as [Hnn Hs].
  assert (HB : 0 < INR (length p)) by (apply lt_0_INR; exact Hlen).
  unfold entropy_spec.
  pose proof (Rsum_map_le
                (fun x => (1 - ln (INR (length p))) * x + - / INR (length p))
                (fun x => x * ln (x + eps)) p) as Hle.
  rewrite Rsum_map_affine, Hs in Hle.
  assert (INR (length p) * - / INR (length p) = -1) by (field; lra).
  assert (Hall : Forall (fun x => (1 - ln (INR (length p))) * x
                                  + - / INR (length p) <= x * ln (x + eps)) p).
  { eapply Forall_impl; [exact Hnn|]. intros x Hx. cbn.
    apply entropy_term_bound; assumption. }
  specialize (Hle Hall). lra.
Qed.

Lemma entropy_uniform (B : nat) :
  (0 < B)%nat ->
  entropy_spec (uniform B) = ln (INR B) - ln (1 + INR B * eps).
Proof.
  intros HB. assert (Hb : 0 < INR B) by (apply lt_0_INR; exact HB).
  pose proof eps_pos as He.
  unfold entropy_spec, uniform. rewrite map_repeat, Rsum_repeat.
  replace (1 / INR B + eps) with ((1 + INR B * eps) * / INR B) by (field; lra).
  rewrite ln_mult, ln_Rinv.
  - field. lra.
  - exact Hb.
  - nra.
  - apply Rinv_0_lt_compat, Hb.
Qed.

Lemma one_hot_split (B k : nat) :
  (k < B)%nat -> one_hot B k = repeat 0 k ++ 1 :: repeat 0 (B - S k).
Proof.
  unfold one_hot. revert k. induction B as [|B IH]; intros k Hk; [lia|].
  destruct k as [|k]; cbn [repeat].
  - cbn. rewrite Nat.sub_0_r. reflexivity.
  - cbn [app]. replace (S B - S (S k))%nat with (B - S k)%nat by lia.
    rewrite <- IH by lia. reflexivity.
Qed.

Lemma Rsum_map_one_hot (f : R -> R) (B k : nat) :
  (k < B)%nat ->
  Rsum (map f (one_hot B k)) = f 1 + INR (B - 1) * f 0.
Proof.
  intros Hk. rewrite one_hot_split by exact Hk.
  rewrite map_app, Rsum_app. cbn [map Rsum fold_right].
  fold (Rsum (map f (repeat 0 (B - S k)))).
  rewrite !map_repeat, !Rsum_repeat.
  replace (B - 1)%nat with (k + (B - S k))%nat by lia.
  rewrite plus_INR. lra.
Qed.

Lemma entropy_one_hot (B k : nat) :
  (k < B)%nat -> entropy_spec (one_hot B k) = - ln (1 + eps).
Proof.
  intros Hk. unfold entropy_spec. rewrite (Rsum_map_one_hot _ B k Hk). lra.
Qed.

Lemma Forall_Forall2_map {A C : Type} (P : A -> C -> Prop) (f : A -> C) (l : list A) :
  Forall (fun a => P a (f a)) l -> Forall2 P l (map f l).
Proof. induction 1; cbn; constructor; assumption. Qed.

(** C8: on a tensor of non-negative entries [entropy_loss] along the axis
    [dim] (counted from the front, or from the back when negative) returns
    [-sum(p * log(p + 1e-9))] for every lane along that axis; a lane that
    is a distribution over [B] categories never gets more than [ln B], the
    uniform distribution gets a value within [B * 1e-9] below [ln B] and a
    one-hot distribution a value within [1e-9] of zero.  Along the last
    axis the lanes are the rows, along the first axis they are the columns
    through the slabs, and an axis the tensor does not have is refused. *)
Theorem entropy_loss_distribution (pre : list nat) (B : nat)
    (post : list nat) (d : list R) (dim : Z) :
  length d = numel (pre ++ B :: post) ->
  Forall (fun x => 0 <= x) d ->
  (dim = Z.of_nat (length pre)
   \/ dim = Z.of_nat (length pre) - Z.of_nat (length (pre ++ B :: post)))%Z ->
  let t := mkTensor (pre ++ B :: post) d in
  let ls := lanes (numel pre) B (numel post) d in
  exists out,
    entropy_loss t dim = Ok (mkTensor (pre ++ post) out)
    /\ Forall2 (fun r h =>
         h = - Rsum (map (fun x => x * ln (x + eps)) r)
         /\ (distribution r ->
             h <= ln (INR B)
             /\ (r = uniform B -> 0 <= ln (INR B) - h <= INR B * eps)
             /\ (forall k, (k < B)%nat -> r = one_hot B k -> - eps <= h <= 0)))
       ls out
    /\ (post = [] ->
        forall rows, d = concat rows -> length rows = numel pre ->
                     Forall (fun r => length r = B) rows -> ls = rows)
    /\ (pre = [] ->
        forall slabs, d = concat slabs -> length slabs = B ->
                      Forall (fun r => length r = numel post) slabs ->
                      ls = map (fun q => map (fun r => nth q r 0) slabs)
                             (seq 0 (numel post)))
    /\ (forall dim',
          (dim' < - Z.of_nat (length (pre ++ B :: post))
           \/ Z.of_nat (length (pre ++ B :: post)) <= dim')%Z ->
          entropy_loss t dim' = Raise IndexError).
Proof.
  intros Hw Hnn Hdim t ls. exists (map entropy_spec ls).
  split; [|split; [|split; [|split]]].
  - apply entropy_loss_axis; assumption.
  - apply Forall_Forall2_map.
    eapply Forall_impl; [apply lanes_length|].
    intros r Hr. cbn beta in Hr |- *. pose proof eps_pos as He.
    split; [reflexivity|]. intros Hd. split; [|split].
    + rewrite <- Hr. apply entropy_le_ln, Hd.
    + intros ->. pose proof (distribution_nonempty _ Hd) as HB.
      unfold uniform in HB at 1. rewrite repeat_length in HB.
      rewrite (entropy_uniform B HB).
      assert (0 <= INR B * eps) by (pose proof (pos_INR B); nra).
      pose proof (ln1p_bounds (INR B * eps)). lra.
    + intros k Hk ->. rewrite (entropy_one_hot B k Hk).
      pose proof (ln1p_bounds eps). lra.
  - intros -> rows -> Hlen Hrows. subst ls. cbn [numel fold_right].
    rewrite <- Hlen. apply lanes_last, Hrows.
  - intros -> slabs -> Hlen Hslabs. subst ls. cbn [numel fold_right].
    rewrite <- Hlen. apply lanes_first, Hslabs.
  - intros dim' Hdim'. apply entropy_loss_bad_axis.
    + exact Hw.
    + exact Hnn.
    + subst t. cbn [shape]. rewrite length_app in *. cbn [length] in *. lia.
Qed.

Lemma entropy_loss_distribution_witness :
  exists out,
    entropy_loss (mkTensor [2%nat; 2%nat] [1 / 2; 1; 1 / 2; 0]) 0
    = Ok (mkTensor [2%nat] out)
    /\ Forall2 (fun r h => h = - Rsum (map (fun x => x * ln (x + eps)) r))
         [[1 / 2; 1 / 2]; [1; 0]] out.
Proof.
  assert (Hnn : Forall (fun x => 0 <= x) [1 / 2; 1; 1 / 2; 0]).
  { repeat (apply List.Forall_cons; [lra|]). apply List.Forall_nil. }
  destruct (entropy_loss_distribution [] 2 [2%nat] [1 / 2; 1; 1 / 2; 0] 0
              eq_refl Hnn (or_introl eq_refl))
    as (out & Hout & Hrows & _ & Hcols & _).
  exists out. split; [exact Hout|].
  rewrite (Hcols eq_refl [[1 / 2; 1]; [1 / 2; 0]] eq_refl eq_refl) in Hrows.
  2:{ repeat (apply List.Forall_cons; [reflexivity|]). apply List.Forall_nil. }
  cbn [numel fold_right Nat.mul Nat.add seq map nth] in Hrows.
  eapply Forall2_impl; [exact Hrows|].
  intros r h [Hh _]. exact Hh.
Defined.

End EntropyClaim.

(** * loss_utils: hard-assignment cross-entropy *)

Section CrossEntropySkin.

Import LossUtils.

Lemma last_axis_parts (pre : list nat) (B : nat) :
  firstn (length pre) (pre ++ [B]) = pre
  /\ skipn (S (length pre)) (pre ++ [B]) = []
  /\ nth (length pre) (pre ++ [B]) 1%nat = B.
Proof.
  split; [|split].
  - rewrite firstn_app, firstn_all, Nat.sub_diag. cbn. apply app_nil_r.
  - apply skipn_all2. rewrite length_app. cbn. lia.
  - rewrite app_nth2, Nat.sub_diag by lia. reflexivity.
Qed.

Lemma argmax_from_bound (l : list R) (best : R) (bi i : nat) :
  (bi < i)%nat -> (snd (argmax_from best bi i l) < i + length l)%nat.
Proof.
  revert best bi i. induction l as [|x l IH]; intros best bi i Hb; cbn.
  - lia.
  - destruct (Rlt_dec best x).
    + specialize (IH x i (S i)). lia.
    + specialize (IH best bi (S i)). lia.
Qed.

Lemma argmax_bound (r : list R) : (0 < length r)%nat -> (argmax r < length r)%nat.
Proof.
  destruct r as [|x l]; cbn; [lia|]. intros _.
  pose proof (argmax_from_bound l x 0 1). lia.
Qed.

Lemma mapM_max_first (rows : list (list R)) :
  Forall (fun r => 0 < length r)%nat rows ->
  exists vs, mapM max_first rows = Ok vs
             /\ map snd vs = map argmax rows
             /\ length vs = length rows.
Proof.
  induction 1 as [|r rs Hr _ (vs & Hvs & Hsnd & Hl)].
  - exists []. repeat split.
  - destruct r as [|x l]; [cbn in Hr; lia|].
    exists (argmax_from x 0 1 l :: vs). cbn [mapM max_first bind].
    rewrite Hvs. cbn. rewrite Hsnd, Hl. repeat split.
Qed.

Lemma map_const_repeat (c : R) (r : list R) :
  map (fun _ => c) r = repeat c (length r).
Proof. induction r as [|x r IH]; cbn; [reflexivity|rewrite IH; reflexivity]. Qed.

Lemma mapM_scatter (B : nat) (rows : list (list R)) (src : list R) :
  Forall (fun r => length r = B) rows ->
  (0 < B)%nat ->
  length src = length rows ->
  Forall (fun v => v = 1) src ->
  mapM (fun riv : list R * (nat * R) =>
          let i := fst (snd riv) in
          if (i <? B)%nat then Ok (<[i := snd (snd riv)]> (fst riv))
          else Raise RuntimeError)
       (zip (map (map (fun _ => 0)) rows) (zip (map argmax rows) src))
  = Ok (map (fun r => one_hot B (argmax r)) rows).
Proof.
  intros Hrows HB. revert src.
  induction Hrows as [|r rs Hr _ IH]; intros src Hlen Hsrc; [reflexivity|].
  destruct src as [|v src]; [discriminate|].
  apply Forall_cons_1 in Hsrc. destruct Hsrc as [-> Hsrc].
  cbn [map zip zip_with mapM fst snd].
  assert (Hlt : (argmax r <? B)%nat = true).
  { apply Nat.ltb_lt. rewrite <- Hr. apply argmax_bound. lia. }
  rewrite Hlt. cbn [bind]. rewrite IH; [|cbn in Hlen; lia|exact Hsrc].
  cbn [bind]. unfold one_hot. rewrite map_const_repeat, Hr. reflexivity.
Qed.

Lemma zip_with_map_r_gen {A C D : Type} (f : A -> C -> D) (g : A -> C) (l : list A) :
  zip_with f l (map g l) = map (fun x => f x (g x)) l.
Proof. induction l as [|x l IH]; cbn; [reflexivity|rewrite IH; reflexivity]. Qed.

Lemma view_rows_concat (s : list nat) (B : nat) (rows : list (list R)) :
  (0 < B)%nat ->
  Forall (fun r => length r = B) rows ->
  view_rows (mkTensor s (concat rows)) B
  = Ok (mkTensor [length rows; B] (concat rows)).
Proof.
  intros HB Hrows. unfold view_rows. cbn [data].
  rewrite (concat_length_uniform B rows Hrows).
  destruct (Nat.eqb_spec B 0) as [->|_]; [lia|].
  rewrite Nat.Div0.mod_mul, Nat.div_mul by lia. reflexivity.
Qed.

End CrossEntropySkin.

Section CrossEntropySkinRows.

Import LossUtils.

Lemma tmax_last_rows (pre : list nat) (B : nat) (rows : list (list R)) :
  (0 < B)%nat ->
  length rows = numel pre ->
  Forall (fun r => length r = B) rows ->
  exists vs : list (R * nat),
    tmax (mkTensor (pre ++ [B]) (concat rows)) (-1) true
    = Ok (mkTensor (pre ++ [1%nat]) (map fst vs),
          mkITensor (pre ++ [1%nat]) (map argmax rows))
    /\ length vs = length rows.
Proof.
  intros HB Hlen Hrows. unfold tmax. cbn [shape data].
  rewrite length_app. cbn [length]. rewrite Nat.add_1_r, wrap_dim_last.
  cbn [bind].
  destruct (last_axis_parts pre B) as (-> & -> & ->).
  cbn [numel fold_right]. fold (numel pre).
  rewrite <- Hlen, lanes_last by exact Hrows.
  destruct (mapM_max_first rows) as (vs & -> & Hsnd & Hl).
  { eapply Forall_impl; [exact Hrows|]. intros r Hr. cbn beta in *. lia. }
  cbn [bind]. destruct (Nat.eqb_spec B 0) as [->|_]; [lia|].
  exists vs. split; [|exact Hl]. rewrite Hsnd, app_nil_r.
  destruct pre; reflexivity.
Qed.

(** Row by row, [cross_entropy_skin_loss] is the cross-entropy of the
    softmax of the scores against the one-hot target at their arg-max. *)
Lemma cross_entropy_skin_loss_rows (pre : list nat) (B : nat)
    (rows : list (list R)) :
  (0 < B)%nat ->
  length rows = numel pre ->
  Forall (fun r => length r = B) rows ->
  cross_entropy_skin_loss (mkTensor (pre ++ [B]) (concat rows))
  = Ok (mkTensor pre (map hard_assignment_ce rows)).
Proof.
  intros HB Hlen Hrows. unfold cross_entropy_skin_loss. cbn [shape].
  rewrite last_snoc. cbn [bind].
  destruct (tmax_last_rows pre B rows HB Hlen Hrows) as (vs & -> & Hvs).
  cbn [bind fst snd].
  (* scatter *)
  unfold scatter_last, tmap. cbn [shape data idata].
  rewrite last_snoc, removelast_last.
  rewrite concat_map, <- Hlen.
  assert (Hl0 : lanes (length rows) B 1 (concat (map (map (fun _ : R => 0)) rows))
                = map (map (fun _ : R => 0)) rows).
  { rewrite <- (length_map (map (fun _ : R => 0)) rows).
    apply lanes_last. apply uniform_map, Hrows. }
  rewrite Hl0.
  rewrite !length_map, Hvs, !Nat.eqb_refl. cbn [andb negb].
  rewrite (mapM_scatter B rows _ Hrows HB).
  2:{ rewrite !length_map. exact Hvs. }
  2:{ apply Forall_map. apply Forall_forall. intros; reflexivity. }
  cbn [bind].
  (* the two views *)
  rewrite (view_rows_concat (pre ++ [B]) B rows HB Hrows). cbn [bind].
  rewrite (view_rows_concat (pre ++ [B]) B _ HB).
  2:{ apply Forall_map. apply Forall_forall. intros r _. cbn.
      unfold one_hot. rewrite length_insert, repeat_length. reflexivity. }
  cbn [bind]. rewrite length_map.
  (* the row-wise cross entropy *)
  unfold cross_entropy_none. cbn [shape data].
  rewrite bool_decide_eq_true_2 by reflexivity. cbn [negb].
  rewrite lanes_last by exact Hrows.
  assert (Hl1 : lanes (length rows) B 1
                  (concat (map (fun r => one_hot B (argmax r)) rows))
                = map (fun r => one_hot B (argmax r)) rows).
  { rewrite <- (length_map (fun r => one_hot B (argmax r)) rows).
    apply lanes_last. apply Forall_map. apply Forall_forall. intros r _. cbn.
    unfold one_hot. rewrite length_insert, repeat_length. reflexivity. }
  rewrite Hl1.
  rewrite zip_with_map_r_gen.
  cbn [bind]. unfold view. cbn [data]. rewrite length_map, Hlen, Nat.eqb_refl.
  f_equal. f_equal. apply map_ext_Forall.
  eapply Forall_impl; [exact Hrows|]. intros r Hr. cbn.
  unfold hard_assignment_ce. rewrite Hr. reflexivity.
Qed.

End CrossEntropySkinRows.

Section CrossEntropySkinOneHot.

Import LossUtils.

Lemma argmax_from_le (l : list R) (best : R) (bi i : nat) :
  Forall (fun x => x <= best) l -> argmax_from best bi i l = (best, bi).
Proof.
  intros H. revert i. induction H as [|x l Hx _ IH]; intros i; cbn; [reflexivity|].
  destruct (Rlt_dec best x); [lra|apply IH].
Qed.

Lemma argmax_from_app (l1 l2 : list R) (best : R) (bi i : nat) :
  argmax_from best bi i (l1 ++ l2)
  = argmax_from (fst (argmax_from best bi i l1)) (snd (argmax_from best bi i l1))
      (i + length l1) l2.
Proof.
  revert best bi i. induction l1 as [|x l1 IH]; intros best bi i; cbn.
  - rewrite Nat.add_0_r. reflexivity.
  - destruct (Rlt_dec best x); rewrite IH; f_equal; lia.
Qed.

Lemma Forall_repeat_le (c best : R) (n : nat) :
  c <= best -> Forall (fun x => x <= best) (repeat c n).
Proof. intros H. induction n; cbn; constructor; assumption. Qed.

Lemma argmax_one_hot (B k : nat) : (k < B)%nat -> argmax (one_hot B k) = k.
Proof.
  intros Hk. rewrite one_hot_split by exact Hk.
  destruct k as [|k]; cbn [repeat app argmax].
  - rewrite argmax_from_le; [reflexivity|]. apply Forall_repeat_le. lra.
  - rewrite argmax_from_app.
    rewrite (argmax_from_le (repeat 0 k)) by (apply Forall_repeat_le; lra).
    cbn [fst snd argmax_from]. destruct (Rlt_dec 0 1); [|lra].
    rewrite argmax_from_le by (apply Forall_repeat_le; lra).
    cbn. rewrite repeat_length. reflexivity.
Qed.

Lemma Rsum_cons (x : R) (l : list R) : Rsum (x :: l) = x + Rsum l.
Proof. reflexivity. Qed.

Lemma Rsum_zip_zero (n : nat) (l : list R) :
  Rsum (zip_with Rmult (repeat 0 n) l) = 0.
Proof.
  revert l. induction n as [|n IH]; intros [|x l]; try reflexivity.
  cbn [repeat zip_with]. rewrite Rsum_cons, IH. lra.
Qed.

Lemma dot_one_hot_map (f : R -> R) (B k : nat) (l : list R) :
  length l = B -> (k < B)%nat ->
  Rsum (zip_with Rmult (one_hot B k) (map f l)) = f (nth k l 0).
Proof.
  unfold one_hot. revert B k. induction l as [|x l IH]; intros B k Hl Hk.
  - cbn in Hl. lia.
  - destruct B as [|B]; [lia|]. injection Hl as Hl.
    destruct k as [|k]; cbn [repeat map nth].
    + change (<[0%nat:=1]> (0 :: repeat 0 B)) with (1 :: repeat 0 B).
      cbn [zip_with]. rewrite Rsum_cons, Rsum_zip_zero. lra.
    + change (<[S k:=1]> (0 :: repeat 0 B)) with (0 :: <[k:=1]> (repeat 0 B)).
      cbn [zip_with]. rewrite Rsum_cons, (IH B k Hl) by lia. lra.
Qed.

Lemma nth_one_hot (B k : nat) : (k < B)%nat -> nth k (one_hot B k) 0 = 1.
Proof.
  intros Hk. rewrite one_hot_split by exact Hk.
  rewrite app_nth2; rewrite repeat_length; [|lia].
  rewrite Nat.sub_diag. reflexivity.
Qed.

Lemma length_one_hot (B k : nat) : length (one_hot B k) = B.
Proof. unfold one_hot. rewrite length_insert, repeat_length. reflexivity. Qed.

(** A one-hot row is read as scores: its loss is the softmax cross-entropy
    [ln (e + B - 1) - 1], not zero. *)
Lemma hard_assignment_ce_one_hot (B k : nat) :
  (k < B)%nat ->
  hard_assignment_ce (one_hot B k) = ln (exp 1 + INR (B - 1)) - 1.
Proof.
  intros Hk. unfold hard_assignment_ce, cross_entropy_row, log_softmax.
  rewrite length_one_hot, argmax_one_hot by exact Hk.
  rewrite (dot_one_hot_map _ B k _ (length_one_hot B k) Hk).
  rewrite nth_one_hot by exact Hk.
  rewrite (Rsum_map_one_hot exp B k Hk), exp_0, Rmult_1_r. lra.
Qed.

Lemma one_hot_ce_single : ln (exp 1 + INR (1 - 1)) - 1 = 0.
Proof. cbn. rewrite Rplus_0_r, ln_exp. lra. Qed.

Lemma one_hot_ce_lower (B : nat) :
  (2 <= B)%nat -> 1 / 4 <= ln (exp 1 + INR (B - 1)) - 1.
Proof.
  intros HB.
  assert (Hn : 1 <= INR (B - 1)).
  { replace 1 with (INR 1) by reflexivity. apply le_INR. lia. }
  set (n := INR (B - 1)) in *.
  pose proof (exp_pos 1) as He. pose proof exp_le_3 as He3.
  assert (Hpos : 0 < exp 1 + n) by lra.
  pose proof (ln_le_minus1 (exp 1 * / (exp 1 + n))) as Hln.
  rewrite ln_mult, ln_Rinv, ln_exp in Hln;
    try lra; try (apply Rinv_0_lt_compat; lra).
  assert (Hq : exp 1 * / (exp 1 + n) <= 3 / 4).
  { apply (Rmult_le_reg_r (exp 1 + n)); [lra|].
    rewrite Rmult_assoc, Rinv_l by lra. lra. }
  assert (0 < exp 1 * / (exp 1 + n)).
  { apply Rmult_lt_0_compat; [lra|apply Rinv_0_lt_compat; lra]. }
  specialize (Hln H). lra.
Qed.

End CrossEntropySkinOneHot.

Section CrossEntropySkinClaim.

Import LossUtils.

(** C2, as the code has it: a row that is already one-hot over [B]
    categories is read as unnormalised scores and taken through softmax, so
    its loss is [ln (e + B - 1) - 1]; that is zero for a single category
    only, and at least a quarter as soon as there are two. *)
Theorem cross_entropy_skin_loss_one_hot (pre : list nat) (B : nat)
    (rows : list (list R)) :
  (0 < B)%nat ->
  length rows = numel pre ->
  Forall (fun r => length r = B) rows ->
  exists out,
    cross_entropy_skin_loss (mkTensor (pre ++ [B]) (concat rows))
    = Ok (mkTensor pre out)
    /\ (forall i k, (k < B)%nat -> rows !! i = Some (one_hot B k) ->
          out !! i = Some (ln (exp 1 + INR (B - 1)) - 1))
    /\ (B = 1%nat -> ln (exp 1 + INR (B - 1)) - 1 = 0)
    /\ ((2 <= B)%nat -> 1 / 4 <= ln (exp 1 + INR (B - 1)) - 1).
Proof.
  intros HB Hlen Hrows. exists (map hard_assignment_ce rows).
  split; [apply cross_entropy_skin_loss_rows; assumption|].
  split; [|split].
  - intros i k Hk Hi. rewrite list_lookup_fmap, Hi. cbn.
    rewrite hard_assignment_ce_one_hot by exact Hk. reflexivity.
  - intros ->. apply one_hot_ce_single.
  - apply one_hot_ce_lower.
Qed.

Lemma cross_entropy_skin_loss_one_hot_witness :
  exists out,
    cross_entropy_skin_loss
      (mkTensor ([1%nat] ++ [3%nat]) (concat [one_hot 3 1])) = Ok (mkTensor [1%nat] out)
    /\ out !! 0%nat = Some (ln (exp 1 + INR (3 - 1)) - 1).
Proof.
  assert (Hu : Forall (fun r : list R => length r = 3%nat) [one_hot 3 1]).
  { apply List.Forall_cons; [reflexivity|apply List.Forall_nil]. }
  assert (H3 : (0 < 3)%nat) by lia.
  destruct (cross_entropy_skin_loss_one_hot [1%nat] 3 [one_hot 3 1] H3 eq_refl Hu)
    as (out & Hout & Hrow & _).
  exists out. split; [exact Hout|].
  apply (Hrow 0%nat 1%nat); [lia|reflexivity].
Defined.

(** The row [[1, 0]] is one-hot, yet its loss is [ln (e + 1) - 1], which is
    above a quarter: not approximately zero. *)
Lemma cross_entropy_skin_loss_one_hot_nonzero :
  cross_entropy_skin_loss (mkTensor [2%nat] [1; 0])
  = Ok (mkTensor [] [ln (exp 1 + 1) - 1])
  /\ 1 / 4 <= ln (exp 1 + 1) - 1.
Proof.
  split.
  - change (mkTensor [2%nat] [1; 0])
      with (mkTensor ([] ++ [2%nat]) (concat [one_hot 2 0])).
    rewrite cross_entropy_skin_loss_rows.
    + cbn [map]. rewrite (hard_assignment_ce_one_hot 2 0) by lia.
      cbn [Nat.sub INR]. reflexivity.
    + lia.
    + reflexivity.
    + apply List.Forall_cons; [reflexivity|apply List.Forall_nil].
  - pose proof (one_hot_ce_lower 2 (le_n 2)) as H. cbn [Nat.sub INR] in H.
    exact H.
Qed.

End CrossEntropySkinClaim.

(** * deformable: the initial signed distance functions *)

Section InitSdf.

Variable lib : Geometry.

(** C7: what [init_proxy] leaves on the object does not depend on
    [geom_path] or [init_scale]: the mesh is always loaded from the literal
    path and scaled by 0.1, and the proxy is always the same sphere. *)
Theorem init_proxy_ignores_arguments (self : Deformable)
    (geom_path1 geom_path2 : string) (init_scale1 init_scale2 : R) :
  init_proxy lib self geom_path1 init_scale1
  = init_proxy lib self geom_path2 init_scale2
  /\ init_proxy lib self geom_path1 init_scale1
     = (mesh <- trimesh_load lib literal_geom_path ;;
        Ok (set_geometry self
              (scale_vertices (1 / 10)
                 (apply_transform lib (euler_matrix lib (- PI) 0 0) mesh))
              (uv_sphere lib (12 / 100) (4%nat, 4%nat))))
  /\ (forall self', init_proxy lib self geom_path1 init_scale1 = Ok self' ->
      init_proxy lib self geom_path2 init_scale2 = Ok self'
      /\ has_geometry self').
Proof.
  split; [reflexivity|]. split; [reflexivity|].
  intros self' H. split; [exact H|].
  unfold init_proxy in H. destruct (trimesh_load lib literal_geom_path); [|discriminate].
  cbn in H. injection H as <-. split; cbn; eauto.
Qed.

(** The sphere closure on a batch of points given by its rows. *)
Lemma call_sphere_rows (self : Deformable) (pre : list nat) (D : nat)
    (rows : list (list R)) :
  length rows = numel pre ->
  Forall (fun p => length p = D) rows ->
  call_sdf_fn lib self sdf_fn_torch_sphere (mkTensor (pre ++ [D]) (concat rows))
  = Ok (mkTensor (pre ++ [1%nat])
          (map (fun p => sqrt (Rsum (map (fun x => x ^ 2) p)) - radius) rows)).
Proof.
  intros Hlen Hrows.
  cbn [call_sdf_fn]. unfold tsum, tmap at 1. cbn [shape data].
  rewrite concat_map, reduce_last.
  - cbn [bind]. unfold tmap. cbn [shape data].
    rewrite !map_map. reflexivity.
  - rewrite length_map. exact Hlen.
  - apply uniform_map, Hrows.
Qed.

(** C4: on an object that has its geometry, [get_init_sdf_fn] answers the
    sphere closure exactly when [mode] is ['sphere'] and the mesh closure
    over [init_geometry] otherwise, whatever the motion type; the skeleton
    closure is never the answer.  Calling the answer for a mode other than
    ['sphere'] evaluates the exact SDF of [init_geometry] at the points,
    negates every distance and appends an axis of extent one (a fault of
    the evaluator is passed on); calling the answer for ['sphere'] sends
    each point to its Euclidean norm minus 0.1; neither call consults the
    object, so the warp's Gaussian SDF is never reached. *)
Theorem get_init_sdf_fn_by_mode (self : Deformable) (mode : string) :
  has_geometry self ->
  (get_init_sdf_fn self mode = Ok sdf_fn_torch_sphere <-> mode = "sphere")
  /\ (mode <> "sphere" ->
      exists g, init_geometry self = Some g
                /\ get_init_sdf_fn self mode = Ok (sdf_fn_torch g))
  /\ get_init_sdf_fn self mode <> Ok sdf_fn_torch_skel
  /\ (forall motion,
        get_init_sdf_fn (set_fg_motion self motion) mode
        = get_init_sdf_fn self mode)
  /\ exists f,
       get_init_sdf_fn self mode = Ok f
       /\ (mode <> "sphere" ->
           forall g pts, init_geometry self = Some g ->
             (forall d, SDF lib (vertices g) (faces g) pts = Ok d ->
                call_sdf_fn lib self f pts
                = Ok (mkTensor (shape d ++ [1%nat]) (map Ropp (data d))))
             /\ (forall e, SDF lib (vertices g) (faces g) pts = Raise e ->
                   call_sdf_fn lib self f pts = Raise e))
       /\ (mode = "sphere" ->
           forall pre D rows,
             length rows = numel pre ->
             Forall (fun p => length p = D) rows ->
             call_sdf_fn lib self f (mkTensor (pre ++ [D]) (concat rows))
             = Ok (mkTensor (pre ++ [1%nat])
                     (map (fun p => sqrt (Rsum (map (fun x => x ^ 2) p)) - radius)
                        rows)))
       /\ (forall self' pts,
             call_sdf_fn lib self' f pts = call_sdf_fn lib self f pts).
Proof.
  intros [[ig Hig] [pg Hpg]]. unfold get_init_sdf_fn.
  rewrite Hig, Hpg. destruct (decide (mode = "sphere")) as [->|Hne].
  - cbn [bool_decide decide_rel getattr bind].
    rewrite !bool_decide_eq_true_2 by reflexivity. cbn [getattr bind].
    split; [split; reflexivity|]. split; [intros Hne; contradiction|].
    split; [discriminate|].
    split; [intros motion; cbn; rewrite Hpg; reflexivity|].
    exists sdf_fn_torch_sphere. split; [reflexivity|].
    split; [intros Hne; contradiction|].
    split; [|reflexivity].
    intros _ pre D rows Hlen Hrows. apply call_sphere_rows; assumption.
  - rewrite !bool_decide_eq_false_2 by exact Hne. cbn [getattr bind].
    split; [split; [discriminate|intros ->; contradiction]|].
    split; [intros _; exists ig; split; reflexivity|].
    split; [discriminate|].
    split; [intros motion; cbn; rewrite Hig; reflexivity|].
    exists (sdf_fn_torch ig). split; [reflexivity|].
    split; [|split; [intros ->; contradiction|reflexivity]].
    intros _ g pts Hg. injection Hg as <-. cbn [call_sdf_fn]. split.
    + intros d ->. reflexivity.
    + intros e ->. reflexivity.
Qed.

End InitSdf.

Lemma get_init_sdf_fn_by_mode_witness :
  get_init_sdf_fn Sample.obj "sphere" = Ok sdf_fn_torch_sphere
  /\ get_init_sdf_fn Sample.obj "mesh" <> Ok sdf_fn_torch_skel
  /\ exists f,
       get_init_sdf_fn Sample.obj "mesh" = Ok f
       /\ call_sdf_fn Sample.lib Sample.obj f (mkTensor [1%nat; 3%nat] [1; 2; 3])
          = Ok (mkTensor [1%nat; 1%nat] [- 0]).
Proof.
  assert (Hg : has_geometry Sample.obj) by (split; cbn; eauto).
  assert (Hne : "mesh" <> "sphere") by discriminate.
  destruct (get_init_sdf_fn_by_mode Sample.lib Sample.obj "sphere" Hg)
    as ([_ Hs] & _).
  destruct (get_init_sdf_fn_by_mode Sample.lib Sample.obj "mesh" Hg)
    as (_ & _ & Hk & _ & f & Hf & Hmesh & _).
  split; [exact (Hs eq_refl)|]. split; [exact Hk|].
  exists f. split; [exact Hf|].
  destruct (Hmesh Hne Sample.mesh0 (mkTensor [1%nat; 3%nat] [1; 2; 3]) eq_refl)
    as [Hok _].
  exact (Hok (mkTensor [1%nat] [0]) eq_refl).
Defined.

Lemma init_proxy_ignores_arguments_witness :
  init_proxy Sample.lib Sample.obj "a.obj" 1
  = init_proxy Sample.lib Sample.obj "b.obj" 2.
Proof.
  destruct (init_proxy_ignores_arguments Sample.lib Sample.obj
              "a.obj" "b.obj" 1 2) as [H _].
  exact H.
Defined.

Section SphereSdf.

Variable lib : Geometry.



End SphereSdf.


(** * deformable: density of the Gaussian bones *)

Section GaussDensity.

Lemma bind_not_unbound {A B : Type} (m : result A) (k : A -> result B) (v : string) :
  m <> Raise (UnboundLocalError v) ->
  (forall a, k a <> Raise (UnboundLocalError v)) ->
  bind m k <> Raise (UnboundLocalError v).
Proof.
  intros Hm Hk. destruct m as [a|e]; cbn; [apply Hk|].
  intros H. apply Hm. injection H as ->. reflexivity.
Qed.

Lemma getitem_not_unbound (x : value) (i : nat) (v : string) :
  getitem x i <> Raise (UnboundLocalError v).
Proof.
  destruct x as [|t|vs]; cbn [getitem]; try discriminate.
  - destruct (shape t) as [|m s]; [discriminate|].
    destruct (i <? m)%nat; discriminate.
  - destruct (vs !! i); discriminate.
Qed.

Lemma slice_to_not_unbound (x : value) (n : nat) (v : string) :
  slice_to x n <> Raise (UnboundLocalError v).
Proof.
  destruct x as [|t|vs]; cbn; try discriminate.
  destruct (shape t); discriminate.
Qed.

Lemma view_rows_not_unbound (t : Tensor) (n : nat) (v : string) :
  view_rows t n <> Raise (UnboundLocalError v).
Proof.
  unfold view_rows. destruct (n =? 0)%nat; [discriminate|].
  destruct (length (data t) mod n =? 0)%nat; discriminate.
Qed.

Lemma view_not_unbound (t : Tensor) (s : list nat) (v : string) :
  view t s <> Raise (UnboundLocalError v).
Proof.
  unfold view. destruct (numel s =? length (data t))%nat; discriminate.
Qed.

(** C10: with a skinning warp, [compute_gauss_density] binds
    [rest_articulation] only under the key test.  Without the key the call
    never returns, and on points of shape (..., 3) the fault is the unbound
    variable; with the key that fault cannot occur (the warp's own density
    routine being free of it). *)
Theorem compute_gauss_density_needs_rest_articulation (self : Deformable)
    (xyz : value) (samples_dict : dict) :
  is_SkinningWarp (warp self) = true ->
  (forall pts b v,
      get_gauss_density (warp self) pts b <> Raise (UnboundLocalError v)) ->
  (samples_dict !! "rest_articulation" = None ->
     (forall out, compute_gauss_density self xyz samples_dict <> Ok out)
     /\ (forall t pts, xyz = VTensor t -> view_rows t 3 = Ok pts ->
           compute_gauss_density self xyz samples_dict
           = Raise (UnboundLocalError "rest_articulation")))
  /\ (is_Some (samples_dict !! "rest_articulation") ->
      forall v, compute_gauss_density self xyz samples_dict
                <> Raise (UnboundLocalError v)).
Proof.
  intros Hskin Hwarp. unfold compute_gauss_density. rewrite Hskin. split.
  - intros ->. split.
    + intros out. destruct xyz as [|t|vs]; cbn [as_tensor bind]; try discriminate.
      destruct (view_rows t 3); cbn [bind]; discriminate.
    + intros t pts -> Hv. cbn [as_tensor bind]. rewrite Hv. reflexivity.
  - intros [ra ->] v.
    destruct xyz as [|t|vs]; cbn [as_tensor bind]; try discriminate.
    destruct (getitem ra 0) as [ra0|e0] eqn:E0; cbn [bind];
      [|intros H; injection H as ->; exact (getitem_not_unbound _ _ _ E0)].
    destruct (slice_to ra0 1) as [a|ea] eqn:Ea; cbn [bind];
      [|intros H; injection H as ->; exact (slice_to_not_unbound _ _ _ Ea)].
    destruct (getitem ra 1) as [ra1|e1] eqn:E1; cbn [bind];
      [|intros H; injection H as ->; exact (getitem_not_unbound _ _ _ E1)].
    destruct (slice_to ra1 1) as [b|eb] eqn:Eb; cbn [bind];
      [|intros H; injection H as ->; exact (slice_to_not_unbound _ _ _ Eb)].
    apply bind_not_unbound; [apply view_rows_not_unbound|intros pts].
    cbn [bind]. apply bind_not_unbound; [apply Hwarp|intros gd].
    apply bind_not_unbound; [apply view_not_unbound|discriminate].
Qed.

End GaussDensity.

Lemma compute_gauss_density_needs_rest_articulation_witness :
  compute_gauss_density Sample.obj
    (VTensor (mkTensor [1%nat; 3%nat] [0; 0; 0])) ∅
  = Raise (UnboundLocalError "rest_articulation").
Proof.
  assert (Hw : forall pts b v,
             get_gauss_density (warp Sample.obj) pts b
             <> Raise (UnboundLocalError v)) by (intros; discriminate).
  destruct (compute_gauss_density_needs_rest_articulation Sample.obj
              (VTensor (mkTensor [1%nat; 3%nat] [0; 0; 0])) ∅ eq_refl Hw)
    as [Hmiss _].
  destruct (Hmiss (lookup_empty _)) as [_ Hfault].
  exact (Hfault _ _ eq_refl eq_refl).
Defined.

Section QueryField.

Lemma slice_first_pose (t : Tensor) (m : nat) (s : list nat) :
  shape t = S m :: s ->
  slice_to (VTensor t) 1 = Ok (VTensor (first_pose t)).
Proof.
  intros Hs. unfold first_pose. cbn [slice_to]. rewrite Hs.
  cbn [tl Nat.min]. replace (Nat.min 1 (S m)) with 1%nat by lia.
  rewrite Nat.mul_1_l. reflexivity.
Qed.

(** C5: with a skinning warp and [two_branch] off, [query_field] adds to
    the base field's output, under ["gauss_density"], the warp's Gaussian
    density at the base query's canonical points flattened to (N, 3), taken
    with the rest articulation cut down to its first pose and scaled by the
    warp's [exp(logibeta)]; every other entry of the base output, the
    deltas and the auxiliary mapping are passed on. *)
Theorem query_field_adds_gauss_density (self : Deformable)
    (samples_dict : dict) (flow_thresh : value)
    (o : gmap string bool) (feat_dict aux_dict : dict) (deltas : Tensor)
    (xyz pts r0 r1 dens : Tensor) (m0 m1 : nat) (s0 s1 : list nat) :
  is_SkinningWarp (warp self) = true ->
  opts self = Some o -> o !! "two_branch" = Some false ->
  super_query_field (base self) samples_dict flow_thresh
  = Ok (feat_dict, deltas, aux_dict) ->
  feat_dict !! "xyz" = Some (VTensor xyz) ->
  view_rows xyz 3 = Ok pts ->
  samples_dict !! "rest_articulation" = Some (VTuple [VTensor r0; VTensor r1]) ->
  shape r0 = S m0 :: s0 -> shape r1 = S m1 :: s1 ->
  get_gauss_density (warp self) pts
    (Some (VTensor (first_pose r0), VTensor (first_pose r1))) = Ok dens ->
  length (data dens) = numel (removelast (shape xyz)) ->
  let gauss_density :=
    VTensor (mkTensor (removelast (shape xyz) ++ [1%nat])
               (map (fun d => d * exp (warp_logibeta (warp self))) (data dens))) in
  query_field self samples_dict flow_thresh
  = Ok (<["gauss_density" := gauss_density]> feat_dict, deltas, aux_dict)
  /\ (forall out, query_field self samples_dict flow_thresh = Ok out ->
      fst (fst out) !! "gauss_density" = Some gauss_density
      /\ (forall k, k <> "gauss_density" ->
            fst (fst out) !! k = feat_dict !! k)
      /\ snd (fst out) = deltas /\ snd out = aux_dict).
Proof.
  intros Hskin Ho Htb Hq Hxyz Hview Hra Hs0 Hs1 Hd Hlen gd.
  assert (Hres : query_field self samples_dict flow_thresh
                 = Ok (<["gauss_density" := gd]> feat_dict, deltas, aux_dict)).
  { unfold query_field. rewrite Hq. cbn [bind fst snd]. rewrite Ho.
    cbn [bind]. rewrite Htb. cbn [bind negb]. rewrite Hxyz. cbn [bind].
    unfold compute_gauss_density. rewrite Hskin. cbn [as_tensor bind].
    rewrite Hra. cbn [getitem]. cbn [lookup list_lookup bind].
    rewrite (slice_first_pose r0 m0 s0 Hs0). cbn [bind].
    rewrite (slice_first_pose r1 m1 s1 Hs1). cbn [bind].
    rewrite Hview. cbn [bind]. rewrite Hd. cbn [bind].
    unfold view, tmap. cbn [data shape]. rewrite length_map.
    rewrite numel_app, Hlen. cbn [numel fold_right].
    rewrite Nat.mul_1_r, Nat.eqb_refl. cbn [bind].
    rewrite insert_empty, <- insert_union_singleton_l. reflexivity. }
  split; [exact Hres|].
  intros out Hout. rewrite Hres in Hout. injection Hout as <-. cbn [fst snd].
  split; [apply lookup_insert_eq|]. split; [|split; reflexivity].
  intros k Hk. apply lookup_insert_ne. congruence.
Qed.

End QueryField.

Lemma query_field_adds_gauss_density_witness :
  exists feat_dict,
    query_field Sample.obj Sample.samples VNone
    = Ok (feat_dict, mkTensor [1%nat] [1], ∅)
    /\ is_Some (feat_dict !! "gauss_density").
Proof.
  destruct (query_field_adds_gauss_density Sample.obj Sample.samples VNone
              {[ "two_branch" := false ]}
              {[ "xyz" := VTensor (mkTensor [1%nat; 3%nat] [0; 0; 0]) ]} ∅
              (mkTensor [1%nat] [1])
              (mkTensor [1%nat; 3%nat] [0; 0; 0])
              (mkTensor [1%nat; 3%nat] [0; 0; 0])
              (mkTensor [1%nat; 1%nat; 4%nat] [1; 0; 0; 0])
              (mkTensor [1%nat; 1%nat; 4%nat] [0; 0; 0; 0])
              (mkTensor [1%nat; 1%nat] [1 / 2])
              0%nat 0%nat [1%nat; 4%nat] [1%nat; 4%nat]
              eq_refl eq_refl (lookup_singleton_eq _ _) eq_refl
              (lookup_singleton_eq _ _) eq_refl (lookup_singleton_eq _ _)
              eq_refl eq_refl eq_refl eq_refl) as [Hres _].
  eexists. split; [exact Hres|].
  rewrite lookup_insert_eq. eauto.
Defined.

(** * deformable: cycle consistency *)

Section CycleLoss.

Lemma zip_with_concat_uniform (f : R -> R -> R) (D : nat)
    (rows rows' : list (list R)) :
  Forall (fun r => length r = D) rows ->
  Forall (fun r => length r = D) rows' ->
  length rows = length rows' ->
  zip_with f (concat rows) (concat rows')
  = concat (zip_with (zip_with f) rows rows')
  /\ Forall (fun r => length r = D) (zip_with (zip_with f) rows rows').
Proof.
  intros H. revert rows'.
  induction H as [|r rs Hr _ IH]; intros [|r' rs'] H' Hl; try discriminate.
  - split; [reflexivity|constructor].
  - apply Forall_cons_1 in H'. destruct H' as [Hr' Hrs'].
    injection Hl as Hl. destruct (IH rs' Hrs' Hl) as [IH1 IH2].
    cbn [concat zip_with]. split.
    + rewrite zip_with_app by congruence. rewrite IH1. reflexivity.
    + apply List.Forall_cons; [|exact IH2].
      rewrite length_zip_with. lia.
Qed.

Lemma norm2_sub (p q : list R) : norm2 (zip_with Rminus p q) = euclid_dist p q.
Proof.
  unfold norm2, euclid_dist. f_equal. revert q.
  induction p as [|a p IH]; intros [|b q]; try reflexivity.
  cbn [zip_with map]. rewrite !Rsum_cons, IH. lra.
Qed.

Lemma map_norm2_sub (rows rows' : list (list R)) :
  map norm2 (zip_with (zip_with Rminus) rows rows')
  = zip_with euclid_dist rows rows'.
Proof.
  revert rows'. induction rows as [|r rs IH]; intros [|r' rs']; try reflexivity.
  cbn [zip_with map]. rewrite norm2_sub, IH. reflexivity.
Qed.


End CycleLoss.


(** * deformable: Gaussian-bone density consistency *)

Section GaussSkinConsistency.

Lemma INR_length_pos (l : list R) : l <> [] -> 0 < INR (length l).
Proof.
  intros Hne. apply lt_0_INR. destruct l; [contradiction|cbn; lia].
Qed.

Lemma tmean_all_mean (t : Tensor) :
  data t <> [] -> tmean_all t = Ok (mean (data t)).
Proof.
  intros Hne. unfold tmean_all, fdiv, mean.
  pose proof (INR_length_pos _ Hne).
  destruct (Req_dec_T (INR (length (data t))) 0); [lra|reflexivity].
Qed.

Lemma mean_affine (a c : R) (l : list R) :
  l <> [] -> mean (map (fun x => a * x + c) l) = a * mean l + c.
Proof.
  intros Hne. unfold mean. rewrite Rsum_map_affine, length_map.
  pose proof (INR_length_pos _ Hne). field. lra.
Qed.

Lemma mean_unit_interval (l : list R) :
  l <> [] -> Forall (fun d => 0 <= d <= 1) l -> 0 <= mean l <= 1.
Proof.
  intros Hne Hall. pose proof (INR_length_pos _ Hne) as Hn.
  assert (Hs : 0 <= Rsum l <= INR (length l)).
  { clear Hne Hn. induction Hall as [|x l Hx _ IH]; [cbn; lra|].
    rewrite Rsum_cons. cbn [length]. rewrite S_INR. lra. }
  unfold mean. split.
  - apply Rmult_le_pos; [lra|]. left. apply Rinv_0_lt_compat, Hn.
  - apply (Rmult_le_reg_r (INR (length l))); [exact Hn|].
    unfold Rdiv. rewrite Rmult_assoc, Rinv_l by lra. lra.
Qed.

Lemma mean_constant (c : R) (l : list R) :
  l <> [] -> Forall (fun d => d = c) l -> mean l = c.
Proof.
  intros Hne Hall. pose proof (INR_length_pos _ Hne) as Hn.
  assert (Hs : Rsum l = INR (length l) * c).
  { clear Hne Hn. induction Hall as [|x l Hx _ IH]; [cbn; lra|].
    rewrite Rsum_cons, IH, Hx. cbn [length]. rewrite S_INR. lra. }
  unfold mean. rewrite Hs. field. lra.
Qed.

Lemma map_affine_ext (g : R -> R) (a c : R) (l : list R) :
  (forall x, g x = a * x + c) -> map g l = map (fun x => a * x + c) l.
Proof. intros H. apply map_ext. exact H. Qed.

Lemma balance_weights_value (density : Tensor) :
  data density <> [] ->
  Forall (fun d => 0 <= d <= 1) (data density) ->
  let m := mean (data density) in
  0 <= m <= 1
  /\ balance_weights density
     = Ok ((1 / 2) / (floor6 + m), (1 / 2) / (floor6 + (1 - m)),
           tmap (fun d => d * ((1 / 2) / (floor6 + m))
                          + (1 - d) * ((1 / 2) / (floor6 + (1 - m))))
             density).
Proof.
  intros Hne Hunit m.
  pose proof (mean_unit_interval _ Hne Hunit) as Hm. fold m in Hm.
  split; [exact Hm|].
  assert (Hfl : mean (map (fun d => floor6 + 1 - d) (data density))
                = floor6 + (1 - m)).
  { rewrite (map_affine_ext _ (-1) (floor6 + 1)) by (intros; lra).
    rewrite mean_affine by exact Hne. fold m. lra. }
  assert (H6 : 0 < floor6) by (unfold floor6; lra).
  unfold balance_weights. rewrite (tmean_all_mean density Hne). cbn [bind].
  fold m. unfold fdiv at 1.
  destruct (Req_dec_T (floor6 + m) 0); [lra|]. cbn [bind].
  rewrite tmean_all_mean.
  2:{ unfold tmap. cbn [data]. destruct (data density); [contradiction|discriminate]. }
  unfold tmap at 1. cbn [data bind]. rewrite Hfl. unfold fdiv.
  destruct (Req_dec_T (floor6 + (1 - m)) 0); [lra|]. reflexivity.
Qed.

(** C1: on every sampled batch whose rescaled density lies in [0, 1], the
    loss weighs its binary cross-entropy with
    [weight_pos = 0.5 / (1e-6 + mean(density))] and
    [weight_neg = 0.5 / (1e-6 + mean(1 - density))], and the floor keeps
    both divisions defined.  With [m = mean(density)] the positive class
    then carries the total weight [m / (2 (m + 1e-6))] and the negative
    class [(1 - m) / (2 (1 - m + 1e-6))]: each is below one half, the two
    are equal exactly when [m = 1/2], they differ by
    [1e-6 * (weight_pos - weight_neg)], which is at most [1e-6 / (2 delta)]
    when [m] stays [delta] away from 0 and 1, and for a density that is 0.5
    everywhere the two weights coincide. *)
Theorem gauss_skin_class_totals (self : Deformable)
    (pts density_gauss raw : Tensor) :
  get_gauss_density (warp self) pts None = Ok density_gauss ->
  forward_density (base self) pts = Ok raw ->
  data raw <> [] ->
  let density := tmap (fun d => d / exp (logibeta self)) raw in
  Forall (fun d => 0 <= d <= 1) (data density) ->
  let m := mean (data density) in
  let m' := mean (map (fun d => 1 - d) (data density)) in
  exists weight_pos weight_neg,
    let weight :=
      tmap (fun d => d * weight_pos + (1 - d) * weight_neg) density in
    let total_pos := mean (map (fun d => d * weight_pos) (data density)) in
    let total_neg :=
      mean (map (fun d => (1 - d) * weight_neg) (data density)) in
    balance_weights density = Ok (weight_pos, weight_neg, weight)
    /\ gauss_skin_consistency_loss self pts
       = binary_cross_entropy density_gauss density weight
    /\ weight_pos = (1 / 2) / (floor6 + m)
    /\ weight_neg = (1 / 2) / (floor6 + m')
    /\ 0 < floor6 + m /\ 0 < floor6 + m'
    /\ total_pos = m / (2 * (m + floor6))
    /\ total_neg = (1 - m) / (2 * (1 - m + floor6))
    /\ 0 <= total_pos < 1 / 2
    /\ 0 <= total_neg < 1 / 2
    /\ (total_pos = total_neg <-> m = 1 / 2)
    /\ total_neg - total_pos = floor6 * (weight_pos - weight_neg)
    /\ (forall delta, 0 < delta -> delta <= m <= 1 - delta ->
          Rabs (total_neg - total_pos) <= floor6 / (2 * delta))
    /\ (Forall (fun d => d = 1 / 2) (data density) -> weight_pos = weight_neg).
Proof.
  intros Hg Hf Hne density Hunit m m'.
  assert (Hne' : data density <> []).
  { unfold density, tmap. cbn [data]. destruct (data raw); [contradiction|discriminate]. }
  destruct (balance_weights_value density Hne' Hunit) as [Hm Hbw].
  fold m in Hm, Hbw.
  assert (Hm' : m' = 1 - m).
  { unfold m'. rewrite (map_affine_ext _ (-1) 1) by (intros; lra).
    rewrite mean_affine by exact Hne'. fold m. lra. }
  assert (H6 : 0 < floor6) by (unfold floor6; lra).
  exists ((1 / 2) / (floor6 + m)), ((1 / 2) / (floor6 + (1 - m))).
  set (wp := (1 / 2) / (floor6 + m)) in *.
  set (wn := (1 / 2) / (floor6 + (1 - m))) in *.
  assert (Hwp : wp * (floor6 + m) = 1 / 2) by (unfold wp; field; lra).
  assert (Hwn : wn * (floor6 + (1 - m)) = 1 / 2) by (unfold wn; field; lra).
  assert (Hwp0 : 0 < wp) by (apply Rdiv_lt_0_compat; lra).
  assert (Hwn0 : 0 < wn) by (apply Rdiv_lt_0_compat; lra).
  assert (Htp : mean (map (fun d => d * wp) (data density)) = wp * m).
  { rewrite (map_affine_ext _ wp 0) by (intros; lra).
    rewrite mean_affine by exact Hne'. fold m. lra. }
  assert (Htn : mean (map (fun d => (1 - d) * wn) (data density)) = wn * (1 - m)).
  { rewrite (map_affine_ext _ (- wn) wn) by (intros; lra).
    rewrite mean_affine by exact Hne'. fold m. lra. }
  cbv zeta. rewrite Htp, Htn.
  split; [exact Hbw|]. split.
  { unfold gauss_skin_consistency_loss. rewrite Hg. cbn [bind]. rewrite Hf.
    cbn [bind]. fold density. rewrite Hbw. reflexivity. }
  split; [reflexivity|]. split; [rewrite Hm'; reflexivity|].
  split; [lra|]. split; [lra|].
  split; [unfold wp; field; lra|]. split; [unfold wn; field; lra|].
  split; [split; [apply Rmult_le_pos; lra|nra]|].
  split; [split; [apply Rmult_le_pos; lra|nra]|].
  split; [|split; [nra|split]].
  - split.
    + intros Heq.
      assert (Hab : wp * wn * (m * (floor6 + (1 - m)))
                    = wp * wn * ((1 - m) * (floor6 + m))).
      { transitivity ((wp * m) * (wn * (floor6 + (1 - m)))); [ring|].
        rewrite Heq, Hwn. transitivity ((wp * (floor6 + m)) * (wn * (1 - m))); [|ring].
        rewrite Hwp. ring. }
      apply Rmult_eq_reg_l in Hab; [nra|].
      apply Rgt_not_eq. apply Rmult_lt_0_compat; assumption.
    + intros Hh. unfold wp, wn. rewrite Hh. field. lra.
  - intros delta Hd [Hlo Hhi].
    replace (wn * (1 - m) - wp * m) with (floor6 * (wp - wn)) by nra.
    assert (Hup : forall t, delta <= t -> (1 / 2) / (floor6 + t) <= / (2 * delta)).
    { intros t Ht. unfold Rdiv. rewrite Rinv_mult.
      replace (1 * / 2) with (/ 2) by lra.
      apply Rmult_le_compat_l; [lra|]. apply Rinv_le_contravar; lra. }
    pose proof (Hup m Hlo) as Hp. pose proof (Hup (1 - m)) as Hn.
    fold wp in Hp. fold wn in Hn. specialize (Hn ltac:(lra)).
    assert (Hdiff : Rabs (wp - wn) <= / (2 * delta)).
    { apply Rabs_le. split; lra. }
    rewrite Rabs_mult, (Rabs_pos_eq floor6) by lra.
    unfold Rdiv. apply Rmult_le_compat_l; [lra|exact Hdiff].
  - intros Hhalf. pose proof (mean_constant _ _ Hne' Hhalf) as Hmh.
    fold m in Hmh. unfold wp, wn. rewrite Hmh. f_equal. lra.
Qed.

End GaussSkinConsistency.

Lemma gauss_skin_class_totals_witness :
  exists weight_pos weight_neg weight,
    balance_weights
      (tmap (fun d => d / exp (logibeta Sample.obj)) (mkTensor [1%nat; 1%nat] [1 / 2]))
    = Ok (weight_pos, weight_neg, weight)
    /\ weight_pos = weight_neg.
Proof.
  assert (Hh : 1 / 2 / exp (logibeta Sample.obj) = 1 / 2).
  { cbn [logibeta Sample.obj]. rewrite exp_0. lra. }
  assert (Hne : data (mkTensor [1%nat; 1%nat] [1 / 2]) <> []) by discriminate.
  assert (Hu : Forall (fun d => 0 <= d <= 1)
                 (data (tmap (fun d => d / exp (logibeta Sample.obj))
                          (mkTensor [1%nat; 1%nat] [1 / 2])))).
  { apply List.Forall_cons; [rewrite Hh; lra|apply List.Forall_nil]. }
  destruct (gauss_skin_class_totals Sample.obj
              (mkTensor [1%nat; 3%nat] [0; 0; 0])
              (mkTensor [1%nat; 1%nat] [1 / 2]) (mkTensor [1%nat; 1%nat] [1 / 2])
              eq_refl eq_refl Hne Hu)
    as (wp & wn & Hbw & _ & _ & _ & _ & _ & _ & _ & _ & _ & _ & _ & _ & Heq).
  exists wp, wn. eexists. split; [exact Hbw|].
  apply Heq. apply List.Forall_cons; [exact Hh|apply List.Forall_nil].
Defined.

(** On the batch of rescaled densities 0 and 2e-6 the weights are 250000
    and 1/2: the positive class carries the total weight 1/4 and the
    negative class (1 - 1e-6)/2, about twice as much. *)
Lemma gauss_skin_weights_unbalanced :
  let density :=
    tmap (fun d => d / exp (logibeta SampleSparse.obj)) SampleSparse.raw_density in
  forward_density (base SampleSparse.obj) (mkTensor [2%nat; 3%nat] [0; 0; 0; 1; 1; 1])
  = Ok SampleSparse.raw_density
  /\ Forall (fun d => 0 <= d <= 1) (data density)
  /\ exists weight_pos weight_neg weight,
       balance_weights density = Ok (weight_pos, weight_neg, weight)
       /\ weight_pos = 250000
       /\ weight_neg = 1 / 2
       /\ mean (map (fun d => d * weight_pos) (data density)) = 1 / 4
       /\ mean (map (fun d => (1 - d) * weight_neg) (data density))
          = (1 - 1 / 1000000) / 2
       /\ mean (map (fun d => d * weight_pos) (data density))
          <> mean (map (fun d => (1 - d) * weight_neg) (data density)).
Proof.
  cbv zeta.
  assert (Hd : data (tmap (fun d => d / exp (logibeta SampleSparse.obj))
                       SampleSparse.raw_density)
               = [0; 2 / 1000000]).
  { cbn [tmap data map SampleSparse.raw_density logibeta SampleSparse.obj].
    rewrite exp_0. f_equal; [lra|]. f_equal. lra. }
  assert (Hunit : Forall (fun d => 0 <= d <= 1)
                    (data (tmap (fun d => d / exp (logibeta SampleSparse.obj))
                             SampleSparse.raw_density))).
  { rewrite Hd. repeat (apply List.Forall_cons; [lra|]). apply List.Forall_nil. }
  assert (Hne : data (tmap (fun d => d / exp (logibeta SampleSparse.obj))
                        SampleSparse.raw_density) <> []).
  { rewrite Hd. discriminate. }
  split; [reflexivity|]. split; [exact Hunit|].
  destruct (balance_weights_value _ Hne Hunit) as [_ Hbw].
  assert (Hm : mean (data (tmap (fun d => d / exp (logibeta SampleSparse.obj))
                             SampleSparse.raw_density)) = 1 / 1000000).
  { rewrite Hd. unfold mean. cbn [Rsum fold_right length INR]. lra. }
  rewrite Hm in Hbw. do 3 eexists. split; [exact Hbw|].
  rewrite Hd. unfold mean, floor6. cbn [map Rsum fold_right length INR].
  assert (Hwp : 1 / 2 / (1 / 1000000 + 1 / 1000000) = 250000) by lra.
  assert (Hwn : 1 / 2 / (1 / 1000000 + (1 - 1 / 1000000)) = 1 / 2) by lra.
  rewrite Hwp, Hwn. repeat split; lra.
Qed.

(** * Further properties: loss utilities *)

Section CrossEntropyMore.

Import LossUtils.


(** The running maximum keeps the largest entry seen and a position
    holding it. *)
Lemma argmax_from_spec (l seen : list R) (best : R) (bi i : nat) :
  i = length seen ->
  (bi < i)%nat ->
  nth bi seen 0 = best ->
  Forall (fun x => x <= best) seen ->
  (snd (argmax_from best bi i l) < length (seen ++ l))%nat
  /\ nth (snd (argmax_from best bi i l)) (seen ++ l) 0
     = fst (argmax_from best bi i l)
  /\ Forall (fun x => x <= fst (argmax_from best bi i l)) (seen ++ l).
Proof.
  revert seen best bi i.
  induction l as [|x l IH]; intros seen best bi i Hi Hbi Hnth Hall.
  - cbn. rewrite app_nil_r. subst i. auto.
  - cbn [argmax_from].
    replace (seen ++ x :: l) with ((seen ++ [x]) ++ l)
      by (rewrite <- app_assoc; reflexivity).
    assert (Hlen : S i = length (seen ++ [x])).
    { rewrite length_app. cbn. lia. }
    destruct (Rlt_dec best x) as [Hlt|Hge].
    + apply IH; [exact Hlen|lia| |].
      * subst i. rewrite app_nth2, Nat.sub_diag by lia. reflexivity.
      * apply Forall_app. split.
        -- eapply Forall_impl; [exact Hall|]. intros y Hy. cbn beta in *. lra.
        -- apply List.Forall_cons; [lra|apply List.Forall_nil].
    + apply IH; [exact Hlen|lia| |].
      * rewrite app_nth1 by lia. exact Hnth.
      * apply Forall_app. split; [exact Hall|].
        apply List.Forall_cons; [lra|apply List.Forall_nil].
Qed.

Lemma argmax_spec (r : list R) :
  (0 < length r)%nat ->
  (argmax r < length r)%nat
  /\ Forall (fun x => x <= nth (argmax r) r 0) r.
Proof.
  destruct r as [|x l]; [cbn; lia|]. intros _.
  destruct (argmax_from_spec l [x] x 0 1) as (Hk & Hn & Hall);
    [reflexivity|lia|reflexivity| |].
  { apply List.Forall_cons; [lra|apply List.Forall_nil]. }
  cbn [app] in Hk, Hn, Hall. unfold argmax. split; [exact Hk|]. rewrite Hn. exact Hall.
Qed.

Lemma hard_assignment_ce_value (r : list R) :
  (0 < length r)%nat ->
  hard_assignment_ce r = ln (Rsum (map exp r)) - nth (argmax r) r 0.
Proof.
  intros Hr. destruct (argmax_spec r Hr) as [Hk _].
  unfold hard_assignment_ce, cross_entropy_row, log_softmax.
  rewrite (dot_one_hot_map _ (length r) (argmax r) r eq_refl Hk). lra.
Qed.





End CrossEntropyMore.

Section CrossEntropyShift.

Import LossUtils.

Lemma argmax_from_shift (c : R) (l : list R) (best : R) (bi i : nat) :
  argmax_from (best + c) bi i (map (fun x => x + c) l)
  = (fst (argmax_from best bi i l) + c, snd (argmax_from best bi i l)).
Proof.
  revert best bi i. induction l as [|x l IH]; intros best bi i; [reflexivity|].
  cbn [map argmax_from].
  destruct (Rlt_dec (best + c) (x + c)) as [H1|H1];
    destruct (Rlt_dec best x) as [H2|H2]; try lra; apply IH.
Qed.

Lemma argmax_shift (c : R) (r : list R) :
  argmax (map (fun x => x + c) r) = argmax r.
Proof.
  destruct r as [|x l]; [reflexivity|].
  cbn [map argmax]. rewrite argmax_from_shift. reflexivity.
Qed.

Lemma Rsum_map_exp_shift (c : R) (r : list R) :
  Rsum (map exp (map (fun x => x + c) r)) = exp c * Rsum (map exp r).
Proof.
  induction r as [|x r IH]; [cbn; lra|].
  cbn [map]. rewrite !Rsum_cons, IH, exp_plus. lra.
Qed.

Lemma Rsum_map_exp_pos (r : list R) :
  (0 < length r)%nat -> 0 < Rsum (map exp r).
Proof.
  destruct r as [|x r]; [cbn; lia|]. intros _.
  cbn [map]. rewrite Rsum_cons. pose proof (exp_pos x).
  assert (0 <= Rsum (map exp r)); [|lra].
  induction r as [|y r IH]; [cbn; lra|].
  cbn [map]. rewrite Rsum_cons. pose proof (exp_pos y). lra.
Qed.

Lemma hard_assignment_ce_shift (c : R) (r : list R) :
  (0 < length r)%nat ->
  hard_assignment_ce (map (fun x => x + c) r) = hard_assignment_ce r.
Proof.
  intros Hr.
  rewrite !hard_assignment_ce_value by (rewrite ?length_map; exact Hr).
  rewrite argmax_shift, Rsum_map_exp_shift.
  destruct (argmax_spec r Hr) as [Hk _].
  rewrite ln_mult, ln_exp by (try apply exp_pos; apply Rsum_map_exp_pos, Hr).
  rewrite (nth_indep _ 0 (0 + c)) by (rewrite length_map; exact Hk).
  rewrite (map_nth (fun x => x + c)). lra.
Qed.

(** X3: adding one constant to all scores leaves
    [cross_entropy_skin_loss] unchanged: only the differences between the
    scores of a row count. *)
Theorem cross_entropy_skin_loss_shift (c : R) (pre : list nat) (B : nat)
    (rows : list (list R)) :
  (0 < B)%nat ->
  length rows = numel pre ->
  Forall (fun r => length r = B) rows ->
  cross_entropy_skin_loss
    (tmap (fun x => x + c) (mkTensor (pre ++ [B]) (concat rows)))
  = cross_entropy_skin_loss (mkTensor (pre ++ [B]) (concat rows)).
Proof.
  intros HB Hlen Hrows. unfold tmap. cbn [shape data].
  rewrite concat_map.
  rewrite !cross_entropy_skin_loss_rows;
    try assumption; try (rewrite length_map; exact Hlen);
    try (apply uniform_map, Hrows).
  f_equal. f_equal. rewrite map_map. apply map_ext_Forall.
  eapply Forall_impl; [exact Hrows|]. intros r Hr. cbn beta in *.
  apply hard_assignment_ce_shift. lia.
Qed.

Lemma cross_entropy_skin_loss_shift_witness :
  cross_entropy_skin_loss
    (tmap (fun x => x + 5) (mkTensor ([] ++ [3%nat]) (concat [[1; 2; 0]])))
  = cross_entropy_skin_loss (mkTensor ([] ++ [3%nat]) (concat [[1; 2; 0]])).
Proof.
  assert (H3 : (0 < 3)%nat) by lia.
  apply (cross_entropy_skin_loss_shift 5 [] 3 [[1; 2; 0]] H3 eq_refl).
  apply List.Forall_cons; [reflexivity|apply List.Forall_nil].
Defined.

Lemma argmax_repeat (c : R) (B : nat) : argmax (repeat c B) = 0%nat.
Proof.
  destruct B as [|B]; [reflexivity|]. cbn [repeat argmax].
  rewrite argmax_from_le; [reflexivity|]. apply Forall_repeat_le. lra.
Qed.

Lemma hard_assignment_ce_tie (c : R) (B : nat) :
  (0 < B)%nat -> hard_assignment_ce (repeat c B) = ln (INR B).
Proof.
  intros HB.
  rewrite hard_assignment_ce_value by (rewrite repeat_length; exact HB).
  rewrite argmax_repeat, map_repeat, Rsum_repeat.
  assert (Hn : nth 0 (repeat c B) 0 = c) by (destruct B; [lia|reflexivity]).
  rewrite Hn, ln_mult, ln_exp; [lra|apply lt_0_INR; exact HB|apply exp_pos].
Qed.

(** X4: a row whose scores are all equal is assigned to its first bone and
    gets the largest loss there is, [ln B]. *)
Theorem cross_entropy_skin_loss_tie (c : R) (pre : list nat) (B : nat)
    (rows : list (list R)) :
  (0 < B)%nat ->
  length rows = numel pre ->
  Forall (fun r => length r = B) rows ->
  exists out,
    cross_entropy_skin_loss (mkTensor (pre ++ [B]) (concat rows))
    = Ok (mkTensor pre out)
    /\ (forall i, rows !! i = Some (repeat c B) ->
          argmax (repeat c B) = 0%nat /\ out !! i = Some (ln (INR B))).
Proof.
  intros HB Hlen Hrows. exists (map hard_assignment_ce rows).
  split; [apply cross_entropy_skin_loss_rows; assumption|].
  intros i Hi. split; [apply argmax_repeat|].
  rewrite list_lookup_fmap, Hi. cbn. rewrite hard_assignment_ce_tie by exact HB.
  reflexivity.
Qed.

Lemma cross_entropy_skin_loss_tie_witness :
  exists out,
    cross_entropy_skin_loss (mkTensor ([] ++ [2%nat]) (concat [repeat 7 2]))
    = Ok (mkTensor [] out)
    /\ out !! 0%nat = Some (ln (INR 2)).
Proof.
  assert (H2 : (0 < 2)%nat) by lia.
  assert (Hu : Forall (fun r : list R => length r = 2%nat) [repeat 7 2]).
  { apply List.Forall_cons; [reflexivity|apply List.Forall_nil]. }
  destruct (cross_entropy_skin_loss_tie 7 [] 2 [repeat 7 2] H2 eq_refl Hu)
    as (out & Hout & Hrow).
  exists out. split; [exact Hout|]. apply (Hrow 0%nat eq_refl).
Defined.

End CrossEntropyShift.

Section LossEdges.

Import LossUtils.

Lemma mapM_max_first_empty (n : nat) :
  (0 < n)%nat -> mapM max_first (repeat [] n) = Raise IndexError.
Proof. destruct n; [lia|reflexivity]. Qed.

Lemma lanes_zero_extent (P : nat) (d : list R) :
  lanes P 0 1 d = repeat [] P.
Proof.
  unfold lanes. cbn [seq map].
  generalize 0%nat. induction P as [|P IH]; intros k; [reflexivity|].
  cbn [seq flat_map repeat app]. rewrite IH. reflexivity.
Qed.

(** X5: [cross_entropy_skin_loss] needs a last axis to take the maximum
    over: a 0-dimensional tensor and a tensor whose last axis has extent
    zero both end in an [IndexError]. *)
Theorem cross_entropy_skin_loss_no_bones (pre : list nat) (d : list R) (x : R) :
  cross_entropy_skin_loss (mkTensor [] [x]) = Raise IndexError
  /\ cross_entropy_skin_loss (mkTensor (pre ++ [0%nat]) d) = Raise IndexError.
Proof.
  split; [reflexivity|].
  unfold cross_entropy_skin_loss. cbn [shape]. rewrite last_snoc. cbn [bind].
  unfold tmax. cbn [shape data].
  rewrite length_app. cbn [length]. rewrite Nat.add_1_r, wrap_dim_last.
  cbn [bind].
  destruct (last_axis_parts pre 0) as (-> & -> & ->).
  cbn [numel fold_right]. fold (numel pre). rewrite lanes_zero_extent.
  destruct (numel pre) as [|n]; [reflexivity|].
  rewrite mapM_max_first_empty by lia. reflexivity.
Qed.

End LossEdges.

(** * Further properties: the initial signed distance functions *)

Section InitSdfMore.

Variable lib : Geometry.

(** X8: once the literal mesh loads, [init_proxy] leaves an object on which
    [get_init_sdf_fn] succeeds for every mode; a mode other than ['sphere']
    gets the closure over the loaded mesh, rotated and scaled by 0.1, and
    nothing but the two geometries of the object changes.  When the mesh
    does not load, [init_proxy] fails with the loader's fault. *)
Theorem init_proxy_then_get_init_sdf_fn (self : Deformable)
    (geom_path : string) (init_scale : R) :
  (forall mesh, trimesh_load lib literal_geom_path = Ok mesh ->
     exists self',
       init_proxy lib self geom_path init_scale = Ok self'
       /\ get_init_sdf_fn self' "sphere" = Ok sdf_fn_torch_sphere
       /\ (forall mode, mode <> "sphere" ->
             get_init_sdf_fn self' mode
             = Ok (sdf_fn_torch
                     (scale_vertices (1 / 10)
                        (apply_transform lib (euler_matrix lib (- PI) 0 0) mesh))))
       /\ (base self', warp self', fg_motion self', training self',
           opts self', logibeta self')
          = (base self, warp self, fg_motion self, training self,
             opts self, logibeta self))
  /\ (forall e, trimesh_load lib literal_geom_path = Raise e ->
        init_proxy lib self geom_path init_scale = Raise e).
Proof.
  unfold init_proxy. split.
  - intros mesh ->. cbn [bind]. eexists. split; [reflexivity|].
    split; [reflexivity|]. split; [|reflexivity].
    intros mode Hne. unfold get_init_sdf_fn.
    rewrite !bool_decide_eq_false_2 by exact Hne. reflexivity.
  - intros e ->. reflexivity.
Qed.

(** X9: before [init_proxy] has run [get_init_sdf_fn] fails on the missing
    attribute.  The mode ['sphere'] reads [proxy_geometry] although the
    sphere closure never uses it, and does not need [init_geometry]; every
    other mode reads [init_geometry] and does not need [proxy_geometry]. *)
Theorem get_init_sdf_fn_missing_geometry (self : Deformable) (mode : string) :
  (proxy_geometry self = None ->
     get_init_sdf_fn self "sphere" = Raise (AttributeError "proxy_geometry"))
  /\ (init_geometry self = None -> mode <> "sphere" ->
        get_init_sdf_fn self mode = Raise (AttributeError "init_geometry"))
  /\ (is_Some (proxy_geometry self) ->
        get_init_sdf_fn self "sphere" = Ok sdf_fn_torch_sphere)
  /\ (forall g, init_geometry self = Some g -> mode <> "sphere" ->
        get_init_sdf_fn self mode = Ok (sdf_fn_torch g)).
Proof.
  unfold get_init_sdf_fn. split; [|split; [|split]].
  - intros ->. reflexivity.
  - intros -> Hne. rewrite !bool_decide_eq_false_2 by exact Hne. reflexivity.
  - intros [g ->]. reflexivity.
  - intros g -> Hne. rewrite !bool_decide_eq_false_2 by exact Hne. reflexivity.
Qed.




End InitSdfMore.


Lemma init_proxy_then_get_init_sdf_fn_witness :
  exists self',
    init_proxy Sample.lib SampleMore.rigid_obj "any.obj" 7 = Ok self'
    /\ get_init_sdf_fn self' "sphere" = Ok sdf_fn_torch_sphere.
Proof.
  destruct (init_proxy_then_get_init_sdf_fn Sample.lib SampleMore.rigid_obj
              "any.obj" 7) as [Hok _].
  destruct (Hok Sample.mesh0 eq_refl) as (self' & Hinit & Hsphere & _).
  exists self'. split; assumption.
Defined.

Lemma get_init_sdf_fn_missing_geometry_witness :
  get_init_sdf_fn SampleMore.rigid_obj "sphere"
  = Raise (AttributeError "proxy_geometry")
  /\ get_init_sdf_fn SampleMore.rigid_obj "mesh"
     = Raise (AttributeError "init_geometry").
Proof.
  destruct (get_init_sdf_fn_missing_geometry SampleMore.rigid_obj "mesh")
    as (Hp & Hi & _).
  split; [apply Hp; reflexivity|apply Hi; [reflexivity|discriminate]].
Defined.

(** * Further properties: the field query *)

Section QueryFieldMore.

(** X11: with [two_branch] on, [query_field] hands the base field's answer
    through untouched, faults included: it never reads ["xyz"], the sample
    mapping or the warp. *)
Theorem query_field_two_branch_passthrough (self : Deformable)
    (samples_dict : dict) (flow_thresh : value) (o : gmap string bool) :
  opts self = Some o -> o !! "two_branch" = Some true ->
  query_field self samples_dict flow_thresh
  = super_query_field (base self) samples_dict flow_thresh.
Proof.
  intros Ho Htb. unfold query_field.
  destruct (super_query_field (base self) samples_dict flow_thresh)
    as [[[fd deltas] aux]|e]; [|reflexivity].
  cbn [bind fst snd]. rewrite Ho. cbn [bind]. rewrite Htb. reflexivity.
Qed.

(** X12: with [two_branch] off and a warp that is not a skinning warp
    nothing is added: the base answer comes back unchanged, provided it has
    an ["xyz"] entry; without that entry the query fails with a [KeyError]
    although the entry would not have been used. *)
Theorem query_field_without_skeleton (self : Deformable)
    (samples_dict : dict) (flow_thresh : value) (o : gmap string bool)
    (feat_dict aux_dict : dict) (deltas : Tensor) :
  is_SkinningWarp (warp self) = false ->
  opts self = Some o -> o !! "two_branch" = Some false ->
  super_query_field (base self) samples_dict flow_thresh
  = Ok (feat_dict, deltas, aux_dict) ->
  (is_Some (feat_dict !! "xyz") ->
     query_field self samples_dict flow_thresh
     = Ok (feat_dict, deltas, aux_dict))
  /\ (feat_dict !! "xyz" = None ->
        query_field self samples_dict flow_thresh = Raise (KeyError "xyz")).
Proof.
  intros Hskin Ho Htb Hq. unfold query_field. rewrite Hq. cbn [bind fst snd].
  rewrite Ho. cbn [bind]. rewrite Htb. cbn [bind negb]. split.
  - intros [xyz ->]. cbn [bind]. unfold compute_gauss_density.
    rewrite Hskin. cbn [bind]. rewrite (left_id_L ∅ (∪)). reflexivity.
  - intros ->. reflexivity.
Qed.

(** X13: the configuration is read only after the base query has run.  A
    fault of the base query comes first; then an object built without
    [opts] (the constructor's default) fails with a [TypeError], and one
    whose [opts] lack ["two_branch"] with a [KeyError]. *)
Theorem query_field_configuration_faults (self : Deformable)
    (samples_dict : dict) (flow_thresh : value) :
  (forall e, super_query_field (base self) samples_dict flow_thresh = Raise e ->
     query_field self samples_dict flow_thresh = Raise e)
  /\ (forall q, super_query_field (base self) samples_dict flow_thresh = Ok q ->
        (opts self = None ->
           query_field self samples_dict flow_thresh = Raise TypeError)
        /\ (forall o, opts self = Some o -> o !! "two_branch" = None ->
              query_field self samples_dict flow_thresh
              = Raise (KeyError "two_branch"))).
Proof.
  unfold query_field. split.
  - intros e ->. reflexivity.
  - intros q ->. cbn [bind]. split.
    + intros ->. reflexivity.
    + intros o -> Hnone. cbn [bind]. rewrite Hnone. reflexivity.
Qed.

(** X14: [compute_gauss_density] looks at nothing of the sample mapping
    but the first pose of the rest articulation: two mappings whose rest
    articulations start with the same pose give the same answer, whatever
    their other poses and their other entries. *)
Theorem compute_gauss_density_first_pose_only (self : Deformable)
    (xyz : value) (sd sd' : dict) (r0 r1 r0' r1' : Tensor)
    (m0 m1 m0' m1' : nat) (s0 s1 s0' s1' : list nat) :
  sd !! "rest_articulation" = Some (VTuple [VTensor r0; VTensor r1]) ->
  sd' !! "rest_articulation" = Some (VTuple [VTensor r0'; VTensor r1']) ->
  shape r0 = S m0 :: s0 -> shape r1 = S m1 :: s1 ->
  shape r0' = S m0' :: s0' -> shape r1' = S m1' :: s1' ->
  first_pose r0 = first_pose r0' -> first_pose r1 = first_pose r1' ->
  compute_gauss_density self xyz sd = compute_gauss_density self xyz sd'.
Proof.
  intros H H' Hs0 Hs1 Hs0' Hs1' E0 E1. unfold compute_gauss_density.
  rewrite H, H'. cbn [getitem]. cbn [lookup list_lookup bind].
  rewrite (slice_first_pose r0 m0 s0 Hs0), (slice_first_pose r1 m1 s1 Hs1).
  rewrite (slice_first_pose r0' m0' s0' Hs0'), (slice_first_pose r1' m1' s1' Hs1').
  rewrite E0, E1. reflexivity.
Qed.

End QueryFieldMore.

Lemma query_field_two_branch_passthrough_witness :
  query_field SampleMore.two_branch_obj ∅ VNone
  = super_query_field (base SampleMore.two_branch_obj) ∅ VNone.
Proof.
  apply (query_field_two_branch_passthrough SampleMore.two_branch_obj ∅ VNone
           {[ "two_branch" := true ]} eq_refl (lookup_singleton_eq _ _)).
Defined.

Lemma query_field_without_skeleton_witness :
  exists q, query_field SampleMore.rigid_query_obj ∅ VNone = Ok q
            /\ super_query_field Sample.field_base ∅ VNone = Ok q.
Proof.
  destruct (query_field_without_skeleton SampleMore.rigid_query_obj ∅ VNone
              {[ "two_branch" := false ]}
              {[ "xyz" := VTensor (mkTensor [1%nat; 3%nat] [0; 0; 0]) ]} ∅
              (mkTensor [1%nat] [1])
              eq_refl eq_refl (lookup_singleton_eq _ _) eq_refl) as [Hok _].
  eexists. split; [apply Hok; rewrite lookup_singleton_eq; eauto|reflexivity].
Defined.

Lemma query_field_configuration_faults_witness :
  query_field SampleMore.rigid_obj ∅ VNone = Raise TypeError.
Proof.
  destruct (query_field_configuration_faults SampleMore.rigid_obj ∅ VNone)
    as [_ H].
  destruct (H _ eq_refl) as [Hnone _]. apply Hnone. reflexivity.
Defined.

Lemma compute_gauss_density_first_pose_only_witness :
  compute_gauss_density Sample.obj
    (VTensor (mkTensor [1%nat; 3%nat] [0; 0; 0])) Sample.samples
  = compute_gauss_density Sample.obj
      (VTensor (mkTensor [1%nat; 3%nat] [0; 0; 0])) SampleMore.samples_two_poses.
Proof.
  apply (compute_gauss_density_first_pose_only Sample.obj
           (VTensor (mkTensor [1%nat; 3%nat] [0; 0; 0]))
           Sample.samples SampleMore.samples_two_poses
           (mkTensor [1%nat; 1%nat; 4%nat] [1; 0; 0; 0])
           (mkTensor [1%nat; 1%nat; 4%nat] [0; 0; 0; 0])
           (mkTensor [2%nat; 1%nat; 4%nat] [1; 0; 0; 0; 0; 1; 0; 0])
           (mkTensor [2%nat; 1%nat; 4%nat] [0; 0; 0; 0; 5; 5; 5; 0])
           0%nat 0%nat 1%nat 1%nat
           [1%nat; 4%nat] [1%nat; 4%nat] [1%nat; 4%nat] [1%nat; 4%nat]);
    reflexivity.
Defined.

(** * Further properties: cycle consistency *)

Section CycleLossMore.

Lemma cycle_loss_training_value (self : Deformable) (xyz : Tensor)
    (frame_id inst_id : value) (samples_dict : dict)
    (pre : list nat) (D : nat) (rows_cycled rows_t : list (list R))
    (cyc_dict warp_dict : dict) :
  training self = true ->
  super_cycle_loss (base self) xyz (mkTensor (pre ++ [D]) (concat rows_t))
    frame_id inst_id samples_dict = Ok cyc_dict ->
  warp_call (warp self) xyz frame_id inst_id false samples_dict true
  = Ok (mkTensor (pre ++ [D]) (concat rows_cycled), warp_dict) ->
  length rows_cycled = numel pre -> length rows_t = numel pre ->
  Forall (fun r => length r = D) rows_cycled ->
  Forall (fun r => length r = D) rows_t ->
  cycle_loss self xyz (mkTensor (pre ++ [D]) (concat rows_t))
    frame_id inst_id samples_dict
  = Ok (warp_dict
        ∪ <["cyc_dist" := VTensor (mkTensor (pre ++ [1%nat])
                                     (zip_with euclid_dist rows_cycled rows_t))]>
            cyc_dict).
Proof.
  intros Htr Hsuper Hwarp Hlc Hlt Hrc Hrt.
  unfold cycle_loss, train_only_fields. rewrite Htr, Hsuper. cbn [bind].
  rewrite Hwarp. cbn [bind fst snd].
  unfold tsub. rewrite tbinop_same_shape;
    [|reflexivity|apply wf_rows; assumption|apply wf_rows; assumption].
  cbn [shape data bind].
  destruct (zip_with_concat_uniform Rminus D rows_cycled rows_t Hrc Hrt)
    as [Hzip Huni]; [congruence|].
  rewrite Hzip. unfold tnorm2. rewrite reduce_last;
    [|rewrite length_zip_with; lia|exact Huni].
  cbn [bind]. rewrite map_norm2_sub. reflexivity.
Qed.




(** X16: the warp's auxiliary mapping is merged last, so an entry it holds
    under ["cyc_dist"] replaces the distance just computed; and the
    distance replaces whatever the base field had stored under that key. *)
Theorem cycle_loss_update_order (self : Deformable) (xyz : Tensor)
    (frame_id inst_id : value) (samples_dict : dict)
    (pre : list nat) (D : nat) (rows_cycled rows_t : list (list R))
    (cyc_dict warp_dict : dict) :
  training self = true ->
  super_cycle_loss (base self) xyz (mkTensor (pre ++ [D]) (concat rows_t))
    frame_id inst_id samples_dict = Ok cyc_dict ->
  warp_call (warp self) xyz frame_id inst_id false samples_dict true
  = Ok (mkTensor (pre ++ [D]) (concat rows_cycled), warp_dict) ->
  length rows_cycled = numel pre -> length rows_t = numel pre ->
  Forall (fun r => length r = D) rows_cycled ->
  Forall (fun r => length r = D) rows_t ->
  exists out,
    cycle_loss self xyz (mkTensor (pre ++ [D]) (concat rows_t))
      frame_id inst_id samples_dict = Ok out
    /\ (forall v, warp_dict !! "cyc_dist" = Some v ->
          out !! "cyc_dist" = Some v)
    /\ (warp_dict !! "cyc_dist" = None ->
          out !! "cyc_dist"
          = Some (VTensor (mkTensor (pre ++ [1%nat])
                             (zip_with euclid_dist rows_cycled rows_t))))
    /\ dom out = dom warp_dict ∪ {["cyc_dist"]} ∪ dom cyc_dict.
Proof.
  intros Htr Hsuper Hwarp Hlc Hlt Hrc Hrt.
  eexists. split; [apply cycle_loss_training_value; eassumption|].
  split; [|split].
  - intros v Hv. apply lookup_union_Some_l. exact Hv.
  - intros Hnone. rewrite lookup_union_r by exact Hnone. apply lookup_insert_eq.
  - rewrite dom_union_L, dom_insert_L, (assoc_L (∪)). reflexivity.
Qed.

End CycleLossMore.


Lemma cycle_loss_update_order_witness :
  exists out,
    cycle_loss Sample.obj (mkTensor [1%nat; 3%nat] [3; 4; 0])
      (mkTensor ([1%nat] ++ [3%nat]) (concat [[0; 0; 0]])) VNone VNone ∅ = Ok out
    /\ dom out = dom (∅ : dict) ∪ {["cyc_dist"]} ∪ dom (∅ : dict).
Proof.
  assert (Hu : forall r : list R, length r = 3%nat ->
               Forall (fun r : list R => length r = 3%nat) [r]).
  { intros r Hr. apply List.Forall_cons; [exact Hr|apply List.Forall_nil]. }
  destruct (cycle_loss_update_order Sample.obj
              (mkTensor [1%nat; 3%nat] [3; 4; 0]) VNone VNone ∅
              [1%nat] 3 [[3; 4; 0]] [[0; 0; 0]] ∅ ∅
              eq_refl eq_refl eq_refl eq_refl eq_refl
              (Hu [3; 4; 0] eq_refl) (Hu [0; 0; 0] eq_refl))
    as (out & Hout & _ & _ & Hdom).
  exists out. split; assumption.
Defined.

(** * Further properties: Gaussian-bone density consistency *)

Section GaussSkinMore.

Lemma class_weight_range (t : R) :
  0 <= t <= 1 ->
  (1 / 2) / (1 + floor6) <= (1 / 2) / (floor6 + t) <= 500000.
Proof.
  intros Ht. assert (H6 : 0 < floor6) by (unfold floor6; lra).
  unfold Rdiv. split.
  - apply Rmult_le_compat_l; [lra|]. apply Rinv_le_contravar; lra.
  - replace 500000 with (1 / 2 * / floor6) by (unfold floor6; field).
    apply Rmult_le_compat_l; [lra|]. apply Rinv_le_contravar; lra.
Qed.

(** X17: the floor caps the class weights.  For every non-empty density
    in [0, 1] both [weight_pos] and [weight_neg] lie between
    [0.5 / (1 + 1e-6)] and 500000, and every per-point weight is
    positive. *)
Theorem balance_weights_bounded (density : Tensor) :
  data density <> [] ->
  Forall (fun d => 0 <= d <= 1) (data density) ->
  exists weight_pos weight_neg weight,
    balance_weights density = Ok (weight_pos, weight_neg, weight)
    /\ (1 / 2) / (1 + floor6) <= weight_pos <= 500000
    /\ (1 / 2) / (1 + floor6) <= weight_neg <= 500000
    /\ shape weight = shape density
    /\ Forall (fun w => 0 < w) (data weight).
Proof.
  intros Hne Hunit.
  destruct (balance_weights_value density Hne Hunit) as [Hm Hbw].
  set (m := mean (data density)) in *.
  assert (H6 : 0 < floor6) by (unfold floor6; lra).
  pose proof class_weight_range as Hb.
  do 3 eexists. split; [exact Hbw|].
  split; [apply Hb; lra|]. split; [apply Hb; lra|]. split; [reflexivity|].
  unfold tmap. cbn [data]. apply Forall_map.
  eapply Forall_impl; [exact Hunit|]. intros d Hd. cbn beta in *.
  pose proof (Hb m Hm) as [Hp _]. pose proof (Hb (1 - m)) as [Hn _]; [lra|].
  assert (0 < (1 / 2) / (1 + floor6)).
  { apply Rdiv_lt_0_compat; lra. }
  set (wp := (1 / 2) / (floor6 + m)) in *.
  set (wn := (1 / 2) / (floor6 + (1 - m))) in *.
  assert (0 <= d * wp) by (apply Rmult_le_pos; lra).
  assert (0 <= (1 - d) * wn) by (apply Rmult_le_pos; lra).
  destruct (Rle_lt_dec d (1 / 2)).
  - assert ((1 / 2) * wn <= (1 - d) * wn)
      by (apply Rmult_le_compat_r; lra). lra.
  - assert ((1 / 2) * wp <= d * wp)
      by (apply Rmult_le_compat_r; lra). lra.
Qed.

(** X18: the per-point weights average to just under one: their mean is
    [1 - 1e-6 * (weight_pos + weight_neg)]. *)
Theorem balance_weights_mean (density : Tensor) :
  data density <> [] ->
  Forall (fun d => 0 <= d <= 1) (data density) ->
  exists weight_pos weight_neg weight,
    balance_weights density = Ok (weight_pos, weight_neg, weight)
    /\ mean (data weight) = 1 - floor6 * (weight_pos + weight_neg)
    /\ mean (data weight) < 1.
Proof.
  intros Hne Hunit.
  destruct (balance_weights_value density Hne Hunit) as [Hm Hbw].
  set (m := mean (data density)) in *.
  assert (H6 : 0 < floor6) by (unfold floor6; lra).
  do 3 eexists. split; [exact Hbw|].
  set (wp := (1 / 2) / (floor6 + m)).
  set (wn := (1 / 2) / (floor6 + (1 - m))).
  assert (Hmean : mean (data (tmap (fun d => d * wp + (1 - d) * wn) density))
                  = 1 - floor6 * (wp + wn)).
  { unfold tmap. cbn [data].
    rewrite (map_affine_ext _ (wp - wn) wn) by (intros; lra).
    rewrite mean_affine by exact Hne. fold m. unfold wp, wn. field. lra. }
  split; [exact Hmean|]. rewrite Hmean.
  assert (0 < wp) by (apply Rdiv_lt_0_compat; lra).
  assert (0 < wn) by (apply Rdiv_lt_0_compat; lra).
  nra.
Qed.

End GaussSkinMore.

Section GaussSkinLoss.

Lemma clamped_log_nonpos (x : R) : x <= 1 -> clamped_log x <= 0.
Proof.
  intros Hx. unfold clamped_log. destruct (Rlt_dec 0 x) as [Hp|_]; [|lra].
  apply Rmax_lub; [|lra]. rewrite <- ln_1.
  destruct Hx as [Hx| ->]; [left; apply ln_increasing; assumption|lra].
Qed.

Lemma bce_term_nonneg (x y w : R) :
  0 <= x <= 1 -> 0 <= y <= 1 -> 0 <= w -> 0 <= bce_term x y w.
Proof.
  intros Hx Hy Hw. unfold bce_term.
  pose proof (clamped_log_nonpos x) as H1.
  pose proof (clamped_log_nonpos (1 - x)) as H2.
  assert (y * clamped_log x <= 0).
  { rewrite <- (Rmult_0_r y). apply Rmult_le_compat_l; lra. }
  assert ((1 - y) * clamped_log (1 - x) <= 0).
  { rewrite <- (Rmult_0_r (1 - y)). apply Rmult_le_compat_l; lra. }
  set (s := y * clamped_log x + (1 - y) * clamped_log (1 - x)) in *.
  assert (s <= 0) by (unfold s; lra).
  replace (- w * s) with (w * - s) by lra. apply Rmult_le_pos; lra.
Qed.

Lemma bce_terms_nonneg (xs ys ws : list R) :
  Forall (fun x => 0 <= x <= 1) xs ->
  Forall (fun y => 0 <= y <= 1) ys ->
  Forall (fun w => 0 <= w) ws ->
  0 <= Rsum (zip_with (fun x yw => bce_term x (fst yw) (snd yw)) xs (zip ys ws)).
Proof.
  intros Hx. revert ys ws.
  induction Hx as [|x xs Hx0 _ IH]; intros ys ws Hy Hw; [cbn; lra|].
  destruct Hy as [|y ys Hy0 Hy]; [cbn; lra|].
  destruct Hw as [|w ws Hw0 Hw]; [cbn; lra|].
  change (zip (y :: ys) (w :: ws)) with ((y, w) :: zip ys ws).
  cbn [zip_with fst snd]. rewrite Rsum_cons.
  pose proof (bce_term_nonneg x y w Hx0 Hy0 Hw0).
  specialize (IH ys ws Hy Hw). lra.
Qed.

Lemma forallb_in_unit (xs : list R) :
  Forall (fun x => 0 <= x <= 1) xs -> forallb in_unit xs = true.
Proof.
  induction 1 as [|x xs Hx _ IH]; [reflexivity|].
  cbn [forallb]. rewrite IH. unfold in_unit.
  destruct (Rle_dec 0 x); [|lra]. destruct (Rle_dec x 1); [reflexivity|lra].
Qed.

Lemma forallb_in_unit_false (xs : list R) :
  Exists (fun x => x < 0 \/ 1 < x) xs -> forallb in_unit xs = false.
Proof.
  induction 1 as [x xs Hx|x xs _ IH]; cbn [forallb].
  - unfold in_unit. destruct (Rle_dec 0 x); [|reflexivity].
    destruct (Rle_dec x 1); [lra|reflexivity].
  - rewrite IH. apply andb_false_r.
Qed.

(** The binary cross-entropy of three tensors of one shape. *)
Lemma binary_cross_entropy_same_shape (input target weight : Tensor) :
  shape input = shape target -> shape weight = shape target ->
  wf weight ->
  Forall (fun x => 0 <= x <= 1) (data input) ->
  binary_cross_entropy input target weight
  = tmean_all
      (mkTensor (shape target)
         (zip_with (fun x yw => bce_term x (fst yw) (snd yw)) (data input)
            (zip (data target) (data weight)))).
Proof.
  intros Hi Hw Hwf Hunit. unfold binary_cross_entropy.
  rewrite bool_decide_eq_true_2 by exact Hi. cbn [negb].
  rewrite (forallb_in_unit _ Hunit). cbn [negb].
  rewrite Hw, broadcast_shapes_same. cbn [bind].
  rewrite bool_decide_eq_true_2 by reflexivity. cbn [negb].
  rewrite <- Hw at 1. rewrite pad_shape_same, Hw.
  rewrite expand_same; [reflexivity|]. unfold wf in Hwf. rewrite <- Hw. exact Hwf.
Qed.

(** X19: for a non-empty batch whose rescaled density and whose Gaussian
    density both lie in [0, 1], [gauss_skin_consistency_loss] is a
    non-negative number; a Gaussian density that leaves [0, 1] somewhere
    makes the cross-entropy refuse the batch. *)
Theorem gauss_skin_consistency_loss_nonneg (self : Deformable)
    (pts density_gauss raw : Tensor) :
  get_gauss_density (warp self) pts None = Ok density_gauss ->
  forward_density (base self) pts = Ok raw ->
  wf raw -> wf density_gauss -> shape density_gauss = shape raw ->
  data raw <> [] ->
  Forall (fun d => 0 <= d / exp (logibeta self) <= 1) (data raw) ->
  (Forall (fun x => 0 <= x <= 1) (data density_gauss) ->
     exists loss, gauss_skin_consistency_loss self pts = Ok loss /\ 0 <= loss)
  /\ (Exists (fun x => x < 0 \/ 1 < x) (data density_gauss) ->
        gauss_skin_consistency_loss self pts = Raise RuntimeError).
Proof.
  intros Hg Hf Hwr Hwg Hs Hne Hunit.
  set (density := tmap (fun d => d / exp (logibeta self)) raw).
  assert (Hne' : data density <> []).
  { unfold density, tmap. cbn [data]. destruct (data raw); [contradiction|discriminate]. }
  assert (Hunit' : Forall (fun d => 0 <= d <= 1) (data density)).
  { unfold density, tmap. cbn [data]. apply Forall_map. exact Hunit. }
  destruct (balance_weights_value density Hne' Hunit') as [Hm Hbw].
  set (wp := 1 / 2 / (floor6 + mean (data density))) in *.
  set (wn := 1 / 2 / (floor6 + (1 - mean (data density)))) in *.
  set (weight := tmap (fun d => d * wp + (1 - d) * wn) density) in *.
  assert (Hsw : shape weight = shape density) by reflexivity.
  assert (Hpos : Forall (fun w => 0 <= w) (data weight)).
  { unfold weight, tmap. cbn [data]. apply Forall_map.
    eapply Forall_impl; [exact Hunit'|]. intros d Hd. cbn beta in *.
    assert (H6 : 0 < floor6) by (unfold floor6; lra).
    assert (0 < (1 / 2) / (1 + floor6)) by (apply Rdiv_lt_0_compat; lra).
    pose proof (class_weight_range (mean (data density)) Hm) as [Hp _].
    pose proof (class_weight_range (1 - mean (data density))) as [Hn _]; [lra|].
    fold wp in Hp. fold wn in Hn.
    assert (0 <= d * wp) by (apply Rmult_le_pos; lra).
    assert (0 <= (1 - d) * wn) by (apply Rmult_le_pos; lra).
    lra. }
  assert (Hloss : gauss_skin_consistency_loss self pts
                  = binary_cross_entropy density_gauss density weight).
  { unfold gauss_skin_consistency_loss. rewrite Hg. cbn [bind]. rewrite Hf.
    cbn [bind]. fold density. rewrite Hbw. reflexivity. }
  assert (Hlw : length (data weight) = length (data raw)).
  { unfold weight, density. unfold tmap. cbn [data].
    rewrite !length_map. reflexivity. }
  rewrite Hloss. split.
  - intros Hin. rewrite binary_cross_entropy_same_shape; try assumption.
    + unfold tmean_all, fdiv. cbn [data].
      set (terms := zip_with _ _ _).
      assert (Hlen : length terms = length (data raw)).
      { unfold terms. rewrite length_zip_with, length_zip.
        unfold density. unfold tmap. cbn [data]. rewrite length_map.
        unfold wf in Hwr, Hwg. rewrite Hwg, Hs, <- Hwr, Hlw. lia. }
      assert (Hn : 0 < INR (length terms)).
      { rewrite Hlen. apply INR_length_pos, Hne. }
      destruct (Req_dec_T (INR (length terms)) 0); [lra|].
      eexists. split; [reflexivity|].
      apply Rmult_le_pos; [|left; apply Rinv_0_lt_compat, Hn].
      apply bce_terms_nonneg; [exact Hin|exact Hunit'|exact Hpos].
    + unfold wf. rewrite Hsw, Hlw. unfold density. unfold tmap. cbn [shape].
      exact Hwr.
  - intros Hout. unfold binary_cross_entropy.
    rewrite bool_decide_eq_true_2 by exact Hs. cbn [negb].
    rewrite (forallb_in_unit_false _ Hout). reflexivity.
Qed.

End GaussSkinLoss.

Lemma balance_weights_bounded_witness :
  exists weight_pos weight_neg weight,
    balance_weights (mkTensor [2%nat; 1%nat] [0; 1])
    = Ok (weight_pos, weight_neg, weight)
    /\ weight_pos <= 500000.
Proof.
  assert (Hne : data (mkTensor [2%nat; 1%nat] [0; 1]) <> []) by discriminate.
  assert (Hu : Forall (fun d => 0 <= d <= 1) (data (mkTensor [2%nat; 1%nat] [0; 1]))).
  { repeat (apply List.Forall_cons; [lra|]). apply List.Forall_nil. }
  destruct (balance_weights_bounded _ Hne Hu)
    as (wp & wn & w & Hbw & [_ Hp] & _).
  exists wp, wn, w. split; assumption.
Defined.

Lemma balance_weights_mean_witness :
  exists weight_pos weight_neg weight,
    balance_weights (mkTensor [2%nat; 1%nat] [0; 1])
    = Ok (weight_pos, weight_neg, weight)
    /\ mean (data weight) < 1.
Proof.
  assert (Hne : data (mkTensor [2%nat; 1%nat] [0; 1]) <> []) by discriminate.
  assert (Hu : Forall (fun d => 0 <= d <= 1) (data (mkTensor [2%nat; 1%nat] [0; 1]))).
  { repeat (apply List.Forall_cons; [lra|]). apply List.Forall_nil. }
  destruct (balance_weights_mean _ Hne Hu) as (wp & wn & w & Hbw & _ & Hlt).
  exists wp, wn, w. split; assumption.
Defined.

Lemma gauss_skin_consistency_loss_nonneg_witness :
  exists loss,
    gauss_skin_consistency_loss Sample.obj (mkTensor [1%nat; 3%nat] [0; 0; 0])
    = Ok loss /\ 0 <= loss.
Proof.
  assert (Hh : 1 / 2 / exp (logibeta Sample.obj) = 1 / 2).
  { cbn [logibeta Sample.obj]. rewrite exp_0. lra. }
  assert (Hne : data (mkTensor [1%nat; 1%nat] [1 / 2]) <> []) by discriminate.
  assert (Hu : Forall (fun d => 0 <= d / exp (logibeta Sample.obj) <= 1)
                 (data (mkTensor [1%nat; 1%nat] [1 / 2]))).
  { apply List.Forall_cons; [rewrite Hh; lra|apply List.Forall_nil]. }
  destruct (gauss_skin_consistency_loss_nonneg Sample.obj
              (mkTensor [1%nat; 3%nat] [0; 0; 0])
              (mkTensor [1%nat; 1%nat] [1 / 2]) (mkTensor [1%nat; 1%nat] [1 / 2])
              eq_refl eq_refl eq_refl eq_refl eq_refl Hne Hu) as [Hok _].
  apply Hok. apply List.Forall_cons; [cbn; lra|apply List.Forall_nil].
Defined.

(** * Further properties: sample assembly *)

Section GetSamplesMore.

Variable super_get_samples : value -> dict -> result dict.
Variable articulation : option Articulation.

Lemma compute_gauss_density_bound (self : Deformable) (xyz : value)
    (samples_dict : dict) (v : string) :
  (forall pts b u,
      get_gauss_density (warp self) pts b <> Raise (UnboundLocalError u)) ->
  is_Some (samples_dict !! "rest_articulation") ->
  compute_gauss_density self xyz samples_dict <> Raise (UnboundLocalError v).
Proof.
  intros Hwarp [ra Hra]. unfold compute_gauss_density.
  destruct (is_SkinningWarp (warp self)); [|discriminate].
  rewrite Hra.
  destruct xyz as [|t|vs]; cbn [as_tensor bind]; try discriminate.
  destruct (getitem ra 0) as [ra0|e0] eqn:E0; cbn [bind];
    [|intros H; injection H as ->; exact (getitem_not_unbound _ _ _ E0)].
  destruct (slice_to ra0 1) as [a|ea] eqn:Ea; cbn [bind];
    [|intros H; injection H as ->; exact (slice_to_not_unbound _ _ _ Ea)].
  destruct (getitem ra 1) as [ra1|e1] eqn:E1; cbn [bind];
    [|intros H; injection H as ->; exact (getitem_not_unbound _ _ _ E1)].
  destruct (slice_to ra1 1) as [b|eb] eqn:Eb; cbn [bind];
    [|intros H; injection H as ->; exact (slice_to_not_unbound _ _ _ Eb)].
  apply bind_not_unbound; [apply view_rows_not_unbound|intros pts].
  cbn [bind]. apply bind_not_unbound; [apply Hwarp|intros gd].
  apply bind_not_unbound; [apply view_not_unbound|discriminate].
Qed.

(** X20: with a skinning warp, whenever [get_samples] succeeds its answer
    holds both ["rest_articulation"] and ["t_articulation"], and agrees
    with the base field's sample mapping on every other key. *)
Theorem get_samples_caches_articulation (self : Deformable) (Kinv : value)
    (batch base_dict out : dict) :
  is_SkinningWarp (warp self) = true ->
  super_get_samples Kinv batch = Ok base_dict ->
  get_samples super_get_samples articulation self Kinv batch = Ok out ->
  is_Some (out !! "rest_articulation")
  /\ is_Some (out !! "t_articulation")
  /\ (forall k, k <> "rest_articulation" -> k <> "t_articulation" ->
        out !! k = base_dict !! k).
Proof.
  intros Hskin Hsuper. unfold get_samples. rewrite Hsuper. cbn [bind].
  rewrite Hskin. unfold getkey.
  destruct (base_dict !! "inst_id"); cbn [bind]; [|discriminate].
  destruct (base_dict !! "frame_id") as [fid|]; cbn [bind]; [|discriminate].
  destruct articulation as [a|]; cbn [getattr];
    [|destruct (batch !! "joint_so3"); discriminate].
  destruct (batch !! "joint_so3") as [ov|]; cbn [bind].
  - destruct (get_mean_vals a) as [rest|]; cbn [bind]; [|discriminate].
    destruct (get_vals a fid (Some ov)) as [t|]; cbn [bind]; [|discriminate].
    intros H. injection H as <-. split; [|split].
    + rewrite lookup_insert_ne by discriminate. rewrite lookup_insert_eq. eauto.
    + rewrite lookup_insert_eq. eauto.
    + intros k H1 H2. rewrite !lookup_insert_ne by congruence. reflexivity.
  - destruct (get_vals_and_mean a fid) as [[t rest]|]; cbn [bind]; [|discriminate].
    intros H. injection H as <-. split; [|split].
    + rewrite lookup_insert_eq. eauto.
    + rewrite lookup_insert_ne by discriminate. rewrite lookup_insert_eq. eauto.
    + intros k H1 H2. rewrite !lookup_insert_ne by congruence. reflexivity.
Qed.

Lemma get_samples_has_rest (self : Deformable) (Kinv : value)
    (batch out : dict) :
  is_SkinningWarp (warp self) = true ->
  get_samples super_get_samples articulation self Kinv batch = Ok out ->
  is_Some (out !! "rest_articulation").
Proof.
  intros Hskin. unfold get_samples.
  destruct (super_get_samples Kinv batch) as [base_dict|]; [|discriminate].
  cbn [bind]. rewrite Hskin. unfold getkey.
  destruct (base_dict !! "inst_id"); cbn [bind]; [|discriminate].
  destruct (base_dict !! "frame_id") as [fid|]; cbn [bind]; [|discriminate].
  destruct articulation as [a|]; cbn [getattr];
    [|destruct (batch !! "joint_so3"); discriminate].
  destruct (batch !! "joint_so3") as [ov|]; cbn [bind].
  - destruct (get_mean_vals a) as [rest|]; cbn [bind]; [|discriminate].
    destruct (get_vals a fid (Some ov)) as [t|]; cbn [bind]; [|discriminate].
    intros H. injection H as <-.
    rewrite lookup_insert_ne by discriminate. rewrite lookup_insert_eq. eauto.
  - destruct (get_vals_and_mean a fid) as [[t rest]|]; cbn [bind]; [|discriminate].
    intros H. injection H as <-. rewrite lookup_insert_eq. eauto.
Qed.

(** X21: the sample mapping [get_samples] assembles is one
    [compute_gauss_density] can take: on it the unbound-variable fault
    does not occur, for any points and any kind of warp (the warp's own
    density routine being free of that fault). *)
Theorem get_samples_then_gauss_density (self : Deformable) (Kinv : value)
    (batch out : dict) (xyz : value) (v : string) :
  (forall pts b u,
      get_gauss_density (warp self) pts b <> Raise (UnboundLocalError u)) ->
  get_samples super_get_samples articulation self Kinv batch = Ok out ->
  compute_gauss_density self xyz out <> Raise (UnboundLocalError v).
Proof.
  intros Hwarp Hout.
  destruct (is_SkinningWarp (warp self)) eqn:Hskin.
  - apply compute_gauss_density_bound; [exact Hwarp|].
    exact (get_samples_has_rest self Kinv batch out Hskin Hout).
  - unfold compute_gauss_density. rewrite Hskin. discriminate.
Qed.

(** X22: without a skinning warp [get_samples] is the base field's
    [get_samples], faults included.  With one, a base mapping that lacks
    ["inst_id"] or ["frame_id"] ends in a [KeyError] -- for ["inst_id"]
    although the value is never used -- and a warp without an articulation
    in an [AttributeError]. *)
Theorem get_samples_faults (self : Deformable) (Kinv : value)
    (batch : dict) :
  (is_SkinningWarp (warp self) = false ->
     get_samples super_get_samples articulation self Kinv batch
     = super_get_samples Kinv batch)
  /\ (is_SkinningWarp (warp self) = true ->
      forall base_dict, super_get_samples Kinv batch = Ok base_dict ->
        (base_dict !! "inst_id" = None ->
           get_samples super_get_samples articulation self Kinv batch
           = Raise (KeyError "inst_id"))
        /\ (is_Some (base_dict !! "inst_id") ->
            base_dict !! "frame_id" = None ->
              get_samples super_get_samples articulation self Kinv batch
              = Raise (KeyError "frame_id"))
        /\ (is_Some (base_dict !! "inst_id") ->
            is_Some (base_dict !! "frame_id") ->
            articulation = None ->
              get_samples super_get_samples articulation self Kinv batch
              = Raise (AttributeError "articulation"))).
Proof.
  unfold get_samples, getkey. split.
  - intros ->. destruct (super_get_samples Kinv batch); reflexivity.
  - intros -> base_dict ->. cbn [bind]. split; [|split].
    + intros ->. reflexivity.
    + intros [iid ->] ->. reflexivity.
    + intros [iid ->] [fid ->] ->. cbn [bind getattr].
      destruct (batch !! "joint_so3"); reflexivity.
Qed.

End GetSamplesMore.

Lemma get_samples_caches_articulation_witness :
  exists out,
    get_samples SampleMore.super_get_samples (Some SampleMore.art)
      Sample.obj VNone ∅ = Ok out
    /\ is_Some (out !! "rest_articulation")
    /\ is_Some (out !! "t_articulation").
Proof.
  assert (Hrun : get_samples SampleMore.super_get_samples (Some SampleMore.art)
                   Sample.obj VNone ∅
                 = Ok (<["rest_articulation" := Sample.rest]>
                         (<["t_articulation" := Sample.rest]>
                            (<["inst_id" := VNone]> (<["frame_id" := VNone]> ∅)))))
    by reflexivity.
  eexists. split; [exact Hrun|].
  destruct (get_samples_caches_articulation SampleMore.super_get_samples
              (Some SampleMore.art) Sample.obj VNone ∅
              (<["inst_id" := VNone]> (<["frame_id" := VNone]> ∅)) _
              eq_refl eq_refl Hrun) as (Hr & Ht & _).
  split; assumption.
Defined.

Lemma get_samples_then_gauss_density_witness :
  compute_gauss_density Sample.obj (VTensor (mkTensor [1%nat; 3%nat] [0; 0; 0]))
    (<["rest_articulation" := Sample.rest]>
       (<["t_articulation" := Sample.rest]>
          (<["inst_id" := VNone]> (<["frame_id" := VNone]> ∅))))
  <> Raise (UnboundLocalError "rest_articulation").
Proof.
  apply (get_samples_then_gauss_density SampleMore.super_get_samples
           (Some SampleMore.art) Sample.obj VNone ∅).
  - intros pts b u. discriminate.
  - reflexivity.
Defined.

Lemma get_samples_faults_witness :
  get_samples SampleMore.super_get_samples None SampleMore.rigid_obj VNone ∅
  = SampleMore.super_get_samples VNone ∅
  /\ get_samples SampleMore.super_get_samples None Sample.obj VNone ∅
     = Raise (AttributeError "articulation").
Proof.
  destruct (get_samples_faults SampleMore.super_get_samples None
              SampleMore.rigid_obj VNone ∅) as [Hrigid _].
  destruct (get_samples_faults SampleMore.super_get_samples None
              Sample.obj VNone ∅) as [_ Hskel].
  split; [apply Hrigid; reflexivity|].
  destruct (Hskel eq_refl _ eq_refl) as (_ & _ & Hart).
  apply Hart; [| |reflexivity].
  - rewrite lookup_insert_eq. eauto.
  - rewrite lookup_insert_ne by discriminate. rewrite lookup_insert_eq. eauto.
Defined.

(** * Further properties: the two warps *)

Section WarpsMore.

Variable cam : Camera.

(** X23: [backward_warp] answers the warp's auxiliary mapping extended by
    ["xyz"], ["dir"] and ["xyz_t"].  The time-t points and the directions
    are those of [cam_to_field]: the directions do not pass through the
    warp, and the warp is asked for the backward direction with auxiliary
    outputs; an auxiliary entry under one of the three keys takes its
    place. *)
Theorem backward_warp_entries (self : Deformable) (xyz_cam dir_cam : Tensor)
    (field2cam frame_id inst_id : value) (samples_dict : dict)
    (xyz_t dir xyz : Tensor) (warp_dict : dict) :
  cam_to_field cam xyz_cam dir_cam field2cam = Ok (xyz_t, dir) ->
  warp_call (warp self) xyz_t frame_id inst_id true samples_dict true
  = Ok (xyz, warp_dict) ->
  exists out,
    backward_warp cam self xyz_cam dir_cam field2cam frame_id inst_id
      samples_dict = Ok out
    /\ dom out = dom warp_dict ∪ {[ "xyz"; "dir"; "xyz_t" ]}
    /\ (forall k v, warp_dict !! k = Some v -> out !! k = Some v)
    /\ (warp_dict !! "xyz" = None -> out !! "xyz" = Some (VTensor xyz))
    /\ (warp_dict !! "dir" = None -> out !! "dir" = Some (VTensor dir))
    /\ (warp_dict !! "xyz_t" = None -> out !! "xyz_t" = Some (VTensor xyz_t)).
Proof.
  intros Hcam Hwarp. unfold backward_warp. rewrite Hcam. cbn [bind fst snd].
  rewrite Hwarp. cbn [bind fst snd]. eexists. split; [reflexivity|].
  split; [|split; [|split; [|split]]].
  - rewrite dom_union_L, !dom_insert_L, dom_empty_L. set_solver.
  - intros k v Hv. apply lookup_union_Some_l. exact Hv.
  - intros Hn. rewrite lookup_union_r by exact Hn.
    rewrite !lookup_insert_ne by discriminate. apply lookup_insert_eq.
  - intros Hn. rewrite lookup_union_r by exact Hn.
    rewrite lookup_insert_ne by discriminate. apply lookup_insert_eq.
  - intros Hn. rewrite lookup_union_r by exact Hn. apply lookup_insert_eq.
Qed.

(** X24: forward then backward warp is a round trip as soon as the two
    collaborators are: if [cam_to_field] undoes [field_to_cam] on the
    warped points and the backward warp undoes the forward warp, then
    [backward_warp] applied to the output of [forward_warp], under the same
    transform, ids and sample mapping, gives back the canonical points
    under ["xyz"]. *)
Theorem forward_then_backward_warp (self : Deformable) (xyz dir_cam : Tensor)
    (field2cam frame_id inst_id : value) (samples_dict : dict)
    (xyz_t xyz_cam dir : Tensor) (aux_fwd aux_bwd : dict) :
  warp_call (warp self) xyz frame_id inst_id false samples_dict false
  = Ok (xyz_t, aux_fwd) ->
  field_to_cam cam xyz_t field2cam = Ok xyz_cam ->
  cam_to_field cam xyz_cam dir_cam field2cam = Ok (xyz_t, dir) ->
  warp_call (warp self) xyz_t frame_id inst_id true samples_dict true
  = Ok (xyz, aux_bwd) ->
  aux_bwd !! "xyz" = None ->
  forward_warp cam self xyz field2cam frame_id inst_id samples_dict
  = Ok xyz_cam
  /\ exists out,
       backward_warp cam self xyz_cam dir_cam field2cam frame_id inst_id
         samples_dict = Ok out
       /\ out !! "xyz" = Some (VTensor xyz).
Proof.
  intros Hfwd Hf2c Hc2f Hbwd Hfresh. split.
  - unfold forward_warp. rewrite Hfwd. cbn [bind fst]. exact Hf2c.
  - unfold backward_warp. rewrite Hc2f. cbn [bind fst snd].
    rewrite Hbwd. cbn [bind fst snd]. eexists. split; [reflexivity|].
    rewrite lookup_union_r by exact Hfresh.
    rewrite !lookup_insert_ne by discriminate. apply lookup_insert_eq.
Qed.

End WarpsMore.

Lemma backward_warp_entries_witness :
  exists out,
    backward_warp SampleMore.cam Sample.obj
      (mkTensor [1%nat; 3%nat] [1; 2; 3]) (mkTensor [1%nat; 3%nat] [0; 0; 1])
      VNone VNone VNone ∅ = Ok out
    /\ out !! "dir" = Some (VTensor (mkTensor [1%nat; 3%nat] [0; 0; 1])).
Proof.
  destruct (backward_warp_entries SampleMore.cam Sample.obj
              (mkTensor [1%nat; 3%nat] [1; 2; 3]) (mkTensor [1%nat; 3%nat] [0; 0; 1])
              VNone VNone VNone ∅
              (mkTensor [1%nat; 3%nat] [1; 2; 3]) (mkTensor [1%nat; 3%nat] [0; 0; 1])
              (mkTensor [1%nat; 3%nat] [1; 2; 3]) ∅ eq_refl eq_refl)
    as (out & Hout & _ & _ & _ & Hdir & _).
  exists out. split; [exact Hout|]. apply Hdir. apply lookup_empty.
Defined.

Lemma forward_then_backward_warp_witness :
  exists out,
    backward_warp SampleMore.cam Sample.obj
      (mkTensor [1%nat; 3%nat] [1; 2; 3]) (mkTensor [1%nat; 3%nat] [0; 0; 1])
      VNone VNone VNone ∅ = Ok out
    /\ out !! "xyz" = Some (VTensor (mkTensor [1%nat; 3%nat] [1; 2; 3])).
Proof.
  destruct (forward_then_backward_warp SampleMore.cam Sample.obj
              (mkTensor [1%nat; 3%nat] [1; 2; 3]) (mkTensor [1%nat; 3%nat] [0; 0; 1])
              VNone VNone VNone ∅
              (mkTensor [1%nat; 3%nat] [1; 2; 3]) (mkTensor [1%nat; 3%nat] [1; 2; 3])
              (mkTensor [1%nat; 3%nat] [0; 0; 1]) ∅ ∅
              eq_refl eq_refl eq_refl eq_refl (lookup_empty _))
    as [_ (out & Hout & Hxyz)].
  exists out. split; assumption.
Defined.

(** * Further properties: initialisation of the skeleton *)

Section MlpInitMore.

Variable articulation : option Articulation.


End MlpInitMore.


(** * loss_utils: align_vectors on floats *)


(** * loss_utils: alignment scale, on floats *)

Section FloatFacts.

Lemma flat_map_chunks_f (g : list spec_float -> list spec_float) (n a : nat)
    (d : list spec_float) :
  (forall c, length c = n -> g c = c) ->
  length d = (a * n)%nat ->
  flat_map (fun i => g (firstn n (skipn (i * n) d))) (seq 0 a) = d.
Proof.
  intros Hg. revert d. induction a as [|a IH]; intros d Hd.
  - destruct d; [reflexivity|discriminate].
  - cbn [seq flat_map]. rewrite <- seq_shift, flat_map_concat_map, map_map,
      <- flat_map_concat_map.
    transitivity (firstn n d ++ skipn n d); [|apply firstn_skipn]. f_equal.
    + cbn [Nat.mul skipn]. apply Hg. rewrite length_firstn. lia.
    + etransitivity; [|apply (IH (skipn n d)); rewrite length_skipn; lia].
      apply flat_map_ext. intros i. f_equal. f_equal.
      rewrite skipn_skipn. f_equal. lia.
Qed.

Lemma fexpand_same (s : list nat) (d : list spec_float) :
  length d = numel s -> fexpand s s d = d.
Proof.
  revert d. induction s as [|a s IH]; intros d Hd; [reflexivity|].
  cbn [fexpand]. rewrite Nat.eqb_refl.
  apply flat_map_chunks_f; [exact IH|exact Hd].
Qed.

Lemma promote_same (dt : dtype) : promote dt dt = dt.
Proof. destruct dt; reflexivity. Qed.

Lemma cast_same (dt : dtype) (x : spec_float) : cast dt dt x = x.
Proof. destruct dt; reflexivity. Qed.

Lemma map_cast_same (dt : dtype) (l : list spec_float) : map (cast dt dt) l = l.
Proof.
  induction l as [|x l IH]; [reflexivity|].
  cbn [map]. rewrite cast_same, IH. reflexivity.
Qed.

(** On two tensors of one dtype and one shape the product pairs the
    entries. *)
Lemma ftmul_same (a b : FTensor) :
  fdtype b = fdtype a -> fshape b = fshape a -> fwf a -> fwf b ->
  ftmul a b
  = Ok (mkFTensor (fdtype a) (fshape a)
          (zip_with (fl_mul (fdtype a)) (fdata a) (fdata b))).
Proof.
  intros Hd Hs Ha Hb. unfold ftmul. rewrite Hd, Hs, broadcast_shapes_same.
  cbn [bind]. rewrite promote_same, pad_shape_same, !map_cast_same.
  rewrite !fexpand_same; [reflexivity| |].
  - unfold fwf in Hb. rewrite Hs in Hb. exact Hb.
  - exact Ha.
Qed.

Lemma align_vectors_unfold (v1 v2 : FTensor) :
  fdtype v2 = fdtype v1 -> fshape v2 = fshape v1 -> fwf v1 -> fwf v2 ->
  LossUtils.align_vectors v1 v2
  = let dt := fdtype v1 in
    let q := fl_div dt (fl_dot dt (fdata v1) (fdata v2))
                       (fl_dot dt (fdata v1) (fdata v1)) in
    if SFltb q fl_zero then Ok (mkFTensor float32 [1%nat] [fl_one float32])
    else Ok (mkFTensor dt [] [q]).
Proof.
  intros Hd Hs H1 H2. unfold LossUtils.align_vectors.
  rewrite (ftmul_same v1 v2 Hd Hs H1 H2).
  rewrite (ftmul_same v1 v1 eq_refl eq_refl H1 H1).
  cbn [bind fdtype]. rewrite promote_same, !cast_same. reflexivity.
Qed.

(** A finite float divided by a float of the same magnitude is exactly
    one, up to the sign. *)
Lemma fl_div_self (dt : dtype) (s1 s2 : bool) (m : positive) (e : Z) :
  fl_div dt (S754_finite s1 m e) (S754_finite s2 m e)
  = if xorb s1 s2 then SFopp (fl_one dt) else fl_one dt.
Proof.
  unfold fl_div, SFdiv, SFdiv_core_binary.
  rewrite !Z.sub_diag.
  assert (Hq : forall p, (0 < p)%Z ->
             Z.div_eucl (Z.shiftl (Zpos m) p) (Zpos m) = (2 ^ p, 0)%Z).
  { intros p Hp. rewrite Z.shiftl_mul_pow2 by lia.
    assert (Hdiv : (Z.pos m * 2 ^ p / Z.pos m = 2 ^ p)%Z).
    { rewrite Z.mul_comm. apply Z.div_mul. lia. }
    assert (Hmod : (Z.pos m * 2 ^ p mod Z.pos m = 0)%Z).
    { rewrite Z.mul_comm. apply Z.mod_mul. lia. }
    unfold Z.div, Z.modulo in Hdiv, Hmod.
    destruct (Z.div_eucl (Z.pos m * 2 ^ p) (Z.pos m)) as [q r]. congruence. }
  assert (Hloc : new_location (Zpos m) 0 = loc_Exact).
  { unfold new_location. destruct (Z.even (Zpos m)); reflexivity. }
  destruct dt; cbn [prec_of emax_of].
  - change (Z.min (fexp 24 128 0) 0) with (-24)%Z.
    change (0 - -24)%Z with 24%Z. cbv beta iota zeta.
    rewrite (Hq 24%Z) by lia. rewrite Hloc.
    destruct s1, s2; reflexivity.
  - change (Z.min (fexp 53 1024 0) 0) with (-53)%Z.
    change (0 - -53)%Z with 53%Z. cbv beta iota zeta.
    rewrite (Hq 53%Z) by lia. rewrite Hloc.
    destruct s1, s2; reflexivity.
Qed.

Lemma binary_round_aux_opp (prec emax : Z) (s : bool) (m e : Z) (l : location) :
  binary_round_aux prec emax (negb s) m e l
  = SFopp (binary_round_aux prec emax s m e l).
Proof.
  unfold binary_round_aux.
  destruct (shr_fexp prec emax m e l) as [mrs' e'].
  destruct (shr_fexp prec emax _ e' loc_Exact) as [mrs'' e''].
  destruct (shr_m mrs''); [reflexivity| |reflexivity].
  destruct (e'' <=? emax - prec)%Z; reflexivity.
Qed.

Lemma binary_round_opp (prec emax : Z) (s : bool) (m : positive) (e : Z) :
  binary_round prec emax (negb s) m e = SFopp (binary_round prec emax s m e).
Proof.
  unfold binary_round. destruct (shl_align m e _) as [mz ez].
  apply binary_round_aux_opp.
Qed.

Lemma fl_mul_opp_r (dt : dtype) (a : spec_float) :
  fl_mul dt a (SFopp a) = SFopp (fl_mul dt a a).
Proof.
  unfold fl_mul. destruct a as [s|s| |s m e]; cbn [SFopp SFmul]; try reflexivity.
  - destruct s; reflexivity.
  - destruct s; reflexivity.
  - replace (xorb s (negb s)) with (negb (xorb s s)) by (destruct s; reflexivity).
    apply binary_round_aux_opp.
Qed.

Lemma binary_round_aux_sign_free (prec emax m e : Z) (l : location) :
  sign_free (binary_round_aux prec emax false m e l).
Proof.
  unfold binary_round_aux.
  destruct (shr_fexp prec emax m e l) as [mrs' e'].
  destruct (shr_fexp prec emax _ e' loc_Exact) as [mrs'' e''].
  destruct (shr_m mrs''); cbn; auto.
  destruct (e'' <=? emax - prec)%Z; reflexivity.
Qed.

Lemma fl_mul_self_sign_free (dt : dtype) (a : spec_float) :
  sign_free (fl_mul dt a a).
Proof.
  unfold fl_mul. destruct a as [s|s| |s m e]; cbn [SFmul sign_free];
    try (destruct s; reflexivity); auto.
  replace (xorb s s) with false by (destruct s; reflexivity).
  apply binary_round_aux_sign_free.
Qed.

Lemma fl_add_mirror (dt : dtype) (a a' p : spec_float) :
  sign_free a -> sign_free p -> mirror a' a ->
  sign_free (fl_add dt a p)
  /\ mirror (fl_add dt a' (SFopp p)) (fl_add dt a p).
Proof.
  unfold fl_add, mirror. intros Ha Hp [->|[-> ->]].
  - destruct a as [sa|sa| |sa ma ea]; cbn [sign_free] in Ha; try subst sa;
      destruct p as [sp|sp| |sp mp ep]; cbn [sign_free] in Hp; try subst sp;
      cbn [SFopp SFadd negb sign_free]; auto.
    cbn [cond_Zopp].
    destruct (shl_align ma ea (Z.min ea ep)) as [A ea'].
    destruct (shl_align mp ep (Z.min ea ep)) as [B ep']. cbn [fst].
    change (Z.pos A + Z.pos B)%Z with (Z.pos (A + B)).
    change (- Z.pos A + - Z.pos B)%Z with (Z.neg (A + B)).
    cbn [binary_normalize]. split.
    + unfold binary_round. destruct (shl_align (A + B) _ _) as [mz ez].
      apply binary_round_aux_sign_free.
    + left. apply (binary_round_opp _ _ false).
  - destruct p as [sp|sp| |sp mp ep]; cbn [sign_free] in Hp; try subst sp;
      cbn [SFopp SFadd negb sign_free]; auto.
Qed.

Lemma fsum_mirror (dt : dtype) (ps : list spec_float) (a a' : spec_float) :
  Forall sign_free ps -> sign_free a -> mirror a' a ->
  sign_free (fold_left (fl_add dt) ps a)
  /\ mirror (fold_left (fl_add dt) (map SFopp ps) a') (fold_left (fl_add dt) ps a).
Proof.
  intros Hps. revert a a'. induction Hps as [|p ps Hp _ IH]; intros a a' Ha Hm.
  - cbn. auto.
  - cbn [map fold_left].
    destruct (fl_add_mirror dt a a' p Ha Hp Hm) as [Ha2 Hm2].
    apply IH; assumption.
Qed.

Lemma squares_sign_free (dt : dtype) (v : list spec_float) :
  Forall sign_free (zip_with (fl_mul dt) v v).
Proof.
  induction v as [|a v IH]; [constructor|].
  cbn [zip_with]. apply List.Forall_cons; [apply fl_mul_self_sign_free|exact IH].
Qed.

Lemma products_opp (dt : dtype) (v : list spec_float) :
  zip_with (fl_mul dt) v (map SFopp v) = map SFopp (zip_with (fl_mul dt) v v).
Proof.
  induction v as [|a v IH]; [reflexivity|].
  cbn [map zip_with]. rewrite fl_mul_opp_r, IH. reflexivity.
Qed.

(** The float dot product of [v] with [-v] is the negated sum of squares
    whenever that sum is a finite nonzero number. *)
Lemma fl_dot_neg (dt : dtype) (v : list spec_float) (s : bool) (m : positive) (e : Z) :
  fl_dot dt v v = S754_finite s m e ->
  s = false /\ fl_dot dt v (map SFopp v) = S754_finite true m e.
Proof.
  unfold fl_dot, fsum. intros Hx. rewrite products_opp.
  destruct (fsum_mirror dt (zip_with (fl_mul dt) v v) fl_zero fl_zero
              (squares_sign_free dt v) eq_refl (or_intror (conj eq_refl eq_refl)))
    as [Hsf Hm].
  rewrite Hx in Hsf, Hm. cbn [sign_free] in Hsf. subst s. split; [reflexivity|].
  destruct Hm as [->|[Hz _]]; [reflexivity|discriminate].
Qed.

End FloatFacts.

Section AlignVectorsClaim.

Import LossUtils.

Lemma SFltb_one_zero (dt : dtype) :
  SFltb (fl_one dt) fl_zero = false /\ SFltb (SFopp (fl_one dt)) fl_zero = true.
Proof. destruct dt; split; reflexivity. Qed.

Lemma fl_div_not_finite_self (dt : dtype) (x : spec_float) :
  finite_nonzero x = false -> fl_div dt x x = S754_nan.
Proof.
  unfold fl_div. destruct x as [s|s| |s m e]; cbn; try reflexivity; discriminate.
Qed.

(** C3, as the floats have it: for a source and a target of one dtype and
    one shape [align_vectors] returns the quotient of the two float dot
    products when it does not compare below zero, and the one-element
    tensor 1.0 when it does, so no entry of its answer is below zero.
    Aligning [v] with itself gives 1.0, and with [-v] the fallback 1.0,
    exactly when the computed [<v, v>] is a finite nonzero number; when it
    has under- or overflowed (or [v] is zero) the answer is nan. *)
Theorem align_vectors_least_squares (v1 v2 : FTensor) :
  fdtype v2 = fdtype v1 -> fshape v2 = fshape v1 -> fwf v1 -> fwf v2 ->
  let dt := fdtype v1 in
  let q := fl_div dt (fl_dot dt (fdata v1) (fdata v2))
                     (fl_dot dt (fdata v1) (fdata v1)) in
  (SFltb q fl_zero = false ->
     align_vectors v1 v2 = Ok (mkFTensor dt [] [q]))
  /\ (SFltb q fl_zero = true ->
        align_vectors v1 v2 = Ok (mkFTensor float32 [1%nat] [fl_one float32]))
  /\ (exists out, align_vectors v1 v2 = Ok out
                  /\ Forall (fun x => SFltb x fl_zero = false) (fdata out))
  /\ (finite_nonzero (fl_dot dt (fdata v1) (fdata v1)) = true ->
        align_vectors v1 v1 = Ok (mkFTensor dt [] [fl_one dt])
        /\ align_vectors v1 (fneg v1)
           = Ok (mkFTensor float32 [1%nat] [fl_one float32]))
  /\ (finite_nonzero (fl_dot dt (fdata v1) (fdata v1)) = false ->
        align_vectors v1 v1 = Ok (mkFTensor dt [] [S754_nan])).
Proof.
  intros Hd Hs H1 H2 dt q.
  assert (Hgen : align_vectors v1 v2
                 = if SFltb q fl_zero
                   then Ok (mkFTensor float32 [1%nat] [fl_one float32])
                   else Ok (mkFTensor dt [] [q])).
  { rewrite (align_vectors_unfold v1 v2 Hd Hs H1 H2). reflexivity. }
  split; [|split; [|split; [|split]]].
  - intros Hq. rewrite Hgen, Hq. reflexivity.
  - intros Hq. rewrite Hgen, Hq. reflexivity.
  - rewrite Hgen. destruct (SFltb q fl_zero) eqn:Hq; eexists;
      (split; [reflexivity|]);
      (apply List.Forall_cons; [|apply List.Forall_nil]).
    + reflexivity.
    + exact Hq.
  - intros Hfin.
    destruct (fl_dot dt (fdata v1) (fdata v1)) as [s|s| |s m e] eqn:Hx;
      try discriminate.
    destruct (fl_dot_neg dt (fdata v1) s m e Hx) as [-> Hneg].
    destruct (SFltb_one_zero dt) as [Hone Hmone]. split.
    + rewrite (align_vectors_unfold v1 v1 eq_refl eq_refl H1 H1).
      cbv zeta. fold dt. rewrite Hx, fl_div_self. cbn [xorb].
      rewrite Hone. reflexivity.
    + assert (Hw : fwf (fneg v1)).
      { unfold fwf, fneg in *. cbn [fdata fshape]. rewrite length_map. exact H1. }
      rewrite (align_vectors_unfold v1 (fneg v1) eq_refl eq_refl H1 Hw).
      cbv zeta. fold dt. cbn [fneg fdata]. rewrite Hx, Hneg, fl_div_self.
      cbn [xorb]. rewrite Hmone. reflexivity.
  - intros Hnf.
    rewrite (align_vectors_unfold v1 v1 eq_refl eq_refl H1 H1).
    cbv zeta. fold dt. rewrite (fl_div_not_finite_self dt _ Hnf). reflexivity.
Qed.

Lemma align_vectors_least_squares_witness :
  align_vectors
    (mkFTensor float32 [2%nat]
       [S754_finite false 12582912 (-22); S754_finite false 8388608 (-21)])
    (mkFTensor float32 [2%nat]
       [S754_finite false 12582912 (-22); S754_finite false 8388608 (-21)])
  = Ok (mkFTensor float32 [] [fl_one float32]).
Proof.
  destruct (align_vectors_least_squares
              (mkFTensor float32 [2%nat]
                 [S754_finite false 12582912 (-22); S754_finite false 8388608 (-21)])
              (mkFTensor float32 [2%nat]
                 [S754_finite false 12582912 (-22); S754_finite false 8388608 (-21)])
              eq_refl eq_refl eq_refl eq_refl) as (_ & _ & _ & Hself & _).
  apply Hself. vm_compute. reflexivity.
Defined.

(** In float32 the vector whose one entry is [2^-100] is not zero, but its
    square underflows to zero: [align_vectors(v, v)] is 0/0 = nan, not
    1.0. *)
Lemma align_vectors_underflow_nan :
  let v := mkFTensor float32 [1%nat] [S754_finite false 8388608 (-123)] in
  valid_binary 24 128 (S754_finite false 8388608 (-123)) = true
  /\ Forall (fun x => is_zero x = false) (fdata v)
  /\ align_vectors v v = Ok (mkFTensor float32 [] [S754_nan])
  /\ align_vectors v v <> Ok (mkFTensor float32 [] [fl_one float32]).
Proof.
  cbv zeta. split; [reflexivity|]. split.
  - apply List.Forall_cons; [reflexivity|apply List.Forall_nil].
  - assert (H : align_vectors
                  (mkFTensor float32 [1%nat] [S754_finite false 8388608 (-123)])
                  (mkFTensor float32 [1%nat] [S754_finite false 8388608 (-123)])
                = Ok (mkFTensor float32 [] [S754_nan])) by (vm_compute; reflexivity).
    split; [exact H|]. rewrite H. discriminate.
Qed.

End AlignVectorsClaim.

Section AlignVectorsZero.

Import LossUtils.

Lemma fl_mul_zero_l (dt : dtype) (a y : spec_float) :
  is_zero a = true ->
  (exists s, fl_mul dt a y = S754_zero s) \/ fl_mul dt a y = S754_nan.
Proof.
  unfold fl_mul. destruct a as [s|s| |s m e]; try discriminate. intros _.
  destruct y as [s'|s'| |s' m' e']; cbn; eauto.
Qed.

Lemma fl_mul_zero_self (dt : dtype) (a : spec_float) :
  is_zero a = true -> fl_mul dt a a = S754_zero false.
Proof.
  unfold fl_mul. destruct a as [[|]|s| |s m e]; try discriminate; reflexivity.
Qed.

Lemma fl_add_zero_or_nan (dt : dtype) (a p : spec_float) :
  ((exists s, a = S754_zero s) \/ a = S754_nan) ->
  ((exists s, p = S754_zero s) \/ p = S754_nan) ->
  (exists s, fl_add dt a p = S754_zero s) \/ fl_add dt a p = S754_nan.
Proof.
  unfold fl_add. intros [[s ->]| ->] [[s' ->]| ->]; cbn; eauto.
  destruct s, s'; eauto.
Qed.

Lemma fold_add_zero_or_nan (dt : dtype) (ps : list spec_float) (a : spec_float) :
  Forall (fun p => (exists s, p = S754_zero s) \/ p = S754_nan) ps ->
  ((exists s, a = S754_zero s) \/ a = S754_nan) ->
  (exists s, fold_left (fl_add dt) ps a = S754_zero s)
  \/ fold_left (fl_add dt) ps a = S754_nan.
Proof.
  intros Hps. revert a. induction Hps as [|p ps Hp _ IH]; intros a Ha.
  - exact Ha.
  - cbn [fold_left]. apply IH. apply fl_add_zero_or_nan; assumption.
Qed.

Lemma fl_dot_zero_l (dt : dtype) (u : list spec_float) :
  Forall (fun x => is_zero x = true) u ->
  forall v, (exists s, fl_dot dt u v = S754_zero s) \/ fl_dot dt u v = S754_nan.
Proof.
  intros Hu v. unfold fl_dot, fsum. apply fold_add_zero_or_nan.
  - revert v. induction Hu as [|x u Hx _ IH]; intros [|y v];
      try apply List.Forall_nil.
    cbn [zip_with]. apply List.Forall_cons; [|apply IH].
    apply fl_mul_zero_l. exact Hx.
  - left. exists false. reflexivity.
Qed.

Lemma fl_dot_zero_self (dt : dtype) (u : list spec_float) :
  Forall (fun x => is_zero x = true) u -> fl_dot dt u u = S754_zero false.
Proof.
  intros Hu. unfold fl_dot, fsum, fl_zero.
  induction Hu as [|x u Hx _ IH]; [reflexivity|].
  cbn [zip_with fold_left]. rewrite (fl_mul_zero_self dt x Hx). exact IH.
Qed.

(** X6: the division in [align_vectors] is unguarded: for a source that is
    zero everywhere (or empty) the scale is 0/0, which the floats make nan,
    whatever the target of that dtype and shape; nan does not compare below
    zero, so the fallback to 1.0 does not catch it and nan is returned. *)
Theorem align_vectors_zero_source (v1 v2 : FTensor) :
  fdtype v2 = fdtype v1 -> fshape v2 = fshape v1 -> fwf v1 -> fwf v2 ->
  Forall (fun x => is_zero x = true) (fdata v1) ->
  align_vectors v1 v2 = Ok (mkFTensor (fdtype v1) [] [S754_nan]).
Proof.
  intros Hd Hs H1 H2 Hz. rewrite (align_vectors_unfold v1 v2 Hd Hs H1 H2).
  cbv zeta. rewrite (fl_dot_zero_self _ _ Hz).
  destruct (fl_dot_zero_l (fdtype v1) _ Hz (fdata v2)) as [[s ->]| ->];
    reflexivity.
Qed.

Lemma align_vectors_zero_source_witness :
  align_vectors
    (mkFTensor float32 [2%nat] [S754_zero false; S754_zero false])
    (mkFTensor float32 [2%nat]
       [S754_finite false 8388608 (-23); S754_finite false 8388608 (-22)])
  = Ok (mkFTensor float32 [] [S754_nan]).
Proof.
  apply (align_vectors_zero_source
           (mkFTensor float32 [2%nat] [S754_zero false; S754_zero false])
           (mkFTensor float32 [2%nat]
              [S754_finite false 8388608 (-23); S754_finite false 8388608 (-22)])
           eq_refl eq_refl eq_refl eq_refl).
  repeat (apply List.Forall_cons; [reflexivity|]). apply List.Forall_nil.
Defined.

End AlignVectorsZero.
